(** * yt task queue: a shallow embedding of
      yt/utilities/parallel_tools/task_queue.py

    The coordinator ([TaskQueueRoot]) is embedded as functions on an explicit
    state record; the worker side ([TaskQueueNonRoot]), whose methods block on
    the communication layer, is embedded as a transition system cut at the
    communication calls.  Python integers are [Z], process ranks are [nat],
    dictionaries are [gmap], message dictionaries are records with the two
    keys the code uses. *)

From stdpp Require Import gmap strings list fin_maps.
From Stdlib Require Import ZArith Lia.

Local Open Scope Z_scope.

(** ** Exceptions *)

Inductive pykey :=
  | key_str (s : string)
  | key_rank (n : nat).

(** [RunTimeError] is the name the two drivers raise (lines 136, 143, 164,
    171); [RuntimeError] is the one [handle_assignment] raises (line 128). *)
Inductive exn :=
  | StopIteration
  | RuntimeError
  | RunTimeError
  | KeyError (k : pykey)
  | IndexError
  | ValueError
  | UnboundLocalError.

Global Instance pykey_eq_dec : EqDecision pykey.
Proof. solve_decision. Defined.
Global Instance exn_eq_dec : EqDecision exn.
Proof. solve_decision. Defined.

Section TaskQueue.

(** Tasks and results are opaque Python objects. *)
Context {obj : Type}.

(** ** Messages (lines 38-43) *)

Record message := Message { msg : string; value : option obj }.

Definition messages_task : message := Message "next" None.
Definition messages_result : message := Message "result" None.
Definition messages_task_req : message := Message "task_req" None.
Definition messages_end : message := Message "no_more_tasks" None.

(** [new_msg['value'] = v] on a copy of a table entry. *)
Definition set_value (m : message) (v : obj) : message :=
  Message (msg m) (Some v).

(** ** Events of the communication layer, as seen by one process *)

Inductive event :=
  | EvPush (ids : list nat)
  | EvPop
  | EvSend (dest : nat) (tag : Z) (m : message)
  | EvRecv (source : nat) (tag : Z) (m : message)
  | EvSubBcast (m : message)
  | EvBarrier
  | EvBcast (vals : gmap Z obj).

(** ** The coordinator: [TaskQueueRoot] (lines 82-130) *)

Record TaskQueueRoot := mkRoot {
  njobs : Z;
  tasks : list obj;
  results : gmap Z obj;
  assignments : gmap nat Z;
  _notified : Z;
  _current : Z;
  _remaining : Z
}.

(** [TaskQueueRoot.__init__] (lines 83-91). *)
Definition TaskQueueRoot_init (tasks : list obj) (njobs : Z) : TaskQueueRoot :=
  {| njobs := njobs;
     tasks := tasks;
     results := ∅;
     assignments := ∅;
     _notified := 0;
     _current := 0;
     _remaining := Z.of_nat (length tasks) |}.

(** Python list indexing [l[i]]: negative indices count from the end,
    anything else out of range raises [IndexError]. *)
Definition py_getitem (l : list obj) (i : Z) : option obj :=
  if 0 <=? i then l !! Z.to_nat i
  else if - Z.of_nat (length l) <=? i then l !! Z.to_nat (Z.of_nat (length l) + i)
  else None.

(** [insert_result] (lines 101-103). *)
Definition insert_result (source_id : nat) (result : obj) (self : TaskQueueRoot)
  : exn + TaskQueueRoot :=
  match assignments self !! source_id with
  | None => inl (KeyError (key_rank source_id))
  | Some task_id =>
      inr {| njobs := njobs self;
             tasks := tasks self;
             results := <[task_id := result]> (results self);
             assignments := assignments self;
             _notified := _notified self;
             _current := _current self;
             _remaining := _remaining self |}
  end.

(** [assign_task] (lines 105-118): the new state and the message handed to
    [comm.send(msg, dest = source_id, tag = 2)]. *)
Definition assign_task (source_id : nat) (self : TaskQueueRoot)
  : exn + (TaskQueueRoot * message) :=
  if _remaining self =? 0 then
    inr ({| njobs := njobs self;
            tasks := tasks self;
            results := results self;
            assignments := assignments self;
            _notified := _notified self + 1;
            _current := _current self;
            _remaining := _remaining self |}, messages_end)
  else
    let task_id := _current self in
    match py_getitem (tasks self) task_id with
    | None => inl IndexError
    | Some task =>
        inr ({| njobs := njobs self;
                tasks := tasks self;
                results := results self;
                assignments := <[source_id := task_id]> (assignments self);
                _notified := _notified self;
                _current := _current self + 1;
                _remaining := _remaining self - 1 |},
             set_value messages_task task)
    end.

(** What one call of [handle_assignment] leaves behind: the state, the
    messages sent (destination, message; all with tag 2) and the exception
    raised, if any. *)
Record handled := Handled {
  h_self : TaskQueueRoot;
  h_sent : list (nat * message);
  h_exc : option exn
}.

(** The final test of [handle_assignment] (lines 129-130). *)
Definition check_notified (self : TaskQueueRoot) : option exn :=
  if _notified self >=? njobs self then Some StopIteration else None.

(** [handle_assignment] (lines 120-130); [source] is [status.source] and [m]
    the message [comm.recv(source = status.source, tag = 1)] returns. *)
Definition handle_assignment (source : nat) (m : message) (self : TaskQueueRoot)
  : handled :=
  if String.eqb (msg m) (msg messages_result) then
    match value m with
    | None => Handled self [] (Some (KeyError (key_str "value")))
    | Some v =>
        match insert_result source v self with
        | inl e => Handled self [] (Some e)
        | inr self' => Handled self' [] (check_notified self')
        end
    end
  else if String.eqb (msg m) (msg messages_task_req) then
    match assign_task source self with
    | inl e => Handled self [] (Some e)
    | inr (self', reply) => Handled self' [(source, reply)] (check_notified self')
    end
  else Handled self [] (Some RuntimeError).

(** ** Process groups (lines 133-151 and 161-179)

    [numpy.arange] and [numpy.array_split] on one-dimensional arrays:
    [array_split] cuts [ary] into [Nsections] consecutive pieces, the first
    [len(ary) % Nsections] of them one element longer, and raises
    [ValueError] for [Nsections <= 0]. *)

Definition arange (start stop : nat) : list nat := seq start (stop - start)%nat.

Definition section_sizes (Ntotal Nsections : nat) : list nat :=
  let Neach_section := (Ntotal / Nsections)%nat in
  let extras := (Ntotal mod Nsections)%nat in
  replicate extras (Neach_section + 1)%nat
    ++ replicate (Nsections - extras)%nat Neach_section.

Fixpoint sub_arys (sizes : list nat) (ary : list nat) : list (list nat) :=
  match sizes with
  | [] => []
  | n :: sizes => take n ary :: sub_arys sizes (drop n ary)
  end.

Definition array_split (ary : list nat) (Nsections : Z) : option (list (list nat)) :=
  if Nsections <=? 0 then None
  else Some (sub_arys (section_sizes (length ary) (Z.to_nat Nsections)) ary).

(** The [for i, comm_set in enumerate(all_new_comms)] scan (lines 147-150):
    the first index whose group holds [my_rank]. *)
Definition find_group (my_rank : nat) (all_new_comms : list (list nat)) : option nat :=
  fst <$> list_find (λ comm_set, my_rank ∈ comm_set) all_new_comms.

Record groups := Groups {
  g_njobs : Z;
  all_new_comms : list (list nat);
  my_new_id : nat
}.

(** Lines 133-150, the same in both drivers.  [parallel_capable] is
    imported from [parallel_analysis_interface] and is taken as a
    parameter; [my_size] is [comm.comm.size], [my_rank] is [comm.rank]. *)
Definition setup_groups (parallel_capable : bool) (my_size my_rank : nat) (njobs : Z)
  : exn + groups :=
  if negb parallel_capable then inl RunTimeError
  else
    let njobs := if njobs <=? 0 then Z.of_nat my_size - 1 else njobs in
    if njobs >=? Z.of_nat my_size then inl RunTimeError
    else
      match array_split (arange 1 my_size) njobs with
      | None => inl ValueError
      | Some split =>
          let all_new_comms := [0%nat] :: split in
          match find_group my_rank all_new_comms with
          | None => inl UnboundLocalError
          | Some my_new_id => inr (Groups njobs all_new_comms my_new_id)
          end
      end.

(** ** The two drivers

    [task_queue func] is [task_queue(func, tasks, njobs)];
    [dynamic_parallel_objects storage body] is the generator
    [dynamic_parallel_objects(tasks, njobs, storage)] consumed by a caller
    that resumes it until it is exhausted and, when a [storage] is given,
    writes [body task] into the [ResultsStorage] it is handed. *)
Inductive driver :=
  | task_queue (func : obj → obj)
  | dynamic_parallel_objects (storage : option (gmap Z obj)) (body : obj → obj).

(** The result a worker sends back for a task, if it sends one: line 76
    for [task_queue], line 193 for a generator with a storage, nothing on
    lines 187-188. *)
Definition submitter (d : driver) : option (obj → obj) :=
  match d with
  | task_queue func => Some func
  | dynamic_parallel_objects None _ => None
  | dynamic_parallel_objects (Some _) body => Some body
  end.

(** Lines 151-157 and 179: [push_with_ids], and for [task_queue] the
    [communication_system.pop()] that comes before [my_q.run(func)]. *)
Definition start_trace (d : driver) (ids : list nat) : list event :=
  match d with
  | task_queue _ => [EvPush ids; EvPop]
  | dynamic_parallel_objects _ _ => [EvPush ids]
  end.

(** The body of a driver up to the point where the queue starts to run. *)
Definition enter (d : driver) (parallel_capable : bool) (my_size my_rank : nat)
    (njobs : Z) : exn + (groups * list event) :=
  match setup_groups parallel_capable my_size my_rank njobs with
  | inl e => inl e
  | inr g => inr (g, start_trace d (default [] (all_new_comms g !! my_new_id g)))
  end.

(** What calling a driver gives back at once.  [task_queue] is an ordinary
    function: its body runs at the call.  [dynamic_parallel_objects] has
    [yield] in its body, so the call only builds the generator; the body
    starts at the first [next]. *)
Inductive called :=
  | CallRaised (e : exn)
  | CallRunning (g : groups) (trace : list event)
  | CallGenerator.

Definition call (d : driver) (parallel_capable : bool) (my_size my_rank : nat)
    (njobs : Z) : called :=
  match d with
  | task_queue _ =>
      match enter d parallel_capable my_size my_rank njobs with
      | inl e => CallRaised e
      | inr (g, trace) => CallRunning g trace
      end
  | dynamic_parallel_objects _ _ => CallGenerator
  end.

(** The first [next] on what [call] returned. *)
Definition first_next (d : driver) (parallel_capable : bool) (my_size my_rank : nat)
    (njobs : Z) : option (exn + (groups * list event)) :=
  match d with
  | task_queue _ => None
  | dynamic_parallel_objects _ _ => Some (enter d parallel_capable my_size my_rank njobs)
  end.

(** After the loop: [finalize] (lines 79-80, 99, 77) for [task_queue],
    lines 195-199 for the generator.  [vals] is the coordinator's [results],
    which the broadcast hands to every process. *)
Definition finish (d : driver) (vals : gmap Z obj)
  : list event * option (gmap Z obj) :=
  match d with
  | task_queue _ => ([EvBcast vals], Some vals)
  | dynamic_parallel_objects None _ => ([EvPop], None)
  | dynamic_parallel_objects (Some storage) _ =>
      ([EvBcast vals; EvPop], Some (vals ∪ storage))
  end.

(** ** The coordinator process

    In its probe loop ([RLoop]), back from the driver ([RReturned], with
    what [task_queue] returns, or the storage after [storage.update]), or
    stopped by an exception ([RFailed]). *)

Inductive rpc :=
  | RLoop
  | RReturned (ret : option (gmap Z obj))
  | RFailed (e : exn).

Record root_proc := RootProc {
  r_q : TaskQueueRoot;
  r_pc : rpc;
  r_trace : list event
}.

Definition root_start (d : driver) (tasks : list obj) (g : groups) : root_proc :=
  RootProc (TaskQueueRoot_init tasks (g_njobs g)) RLoop (start_trace d [0%nat]).

Definition sent_events (sent : list (nat * message)) : list event :=
  map (λ p, EvSend p.1 2 p.2) sent.

(** Modelled from the spec: [comm.probe_loop(1, handler)], of
    [parallel_analysis_interface], which is not among the sources.  It
    waits for a message with tag 1 from any source, calls the handler on
    it, and goes on until the handler raises [StopIteration]; any other
    exception leaves the loop and aborts the run.  [root_recv] is one turn
    of that loop on a message from [source], followed, when the loop ends,
    by what the driver does after it. *)
Definition root_recv (d : driver) (source : nat) (m : message) (p : root_proc)
  : root_proc * list (nat * message) :=
  let h := handle_assignment source m (r_q p) in
  let trace := r_trace p ++ EvRecv source 1 m :: sent_events (h_sent h) in
  match h_exc h with
  | None => (RootProc (h_self h) RLoop trace, h_sent h)
  | Some StopIteration =>
      let fin := finish d (results (h_self h)) in
      (RootProc (h_self h) (RReturned fin.2) (trace ++ fin.1), h_sent h)
  | Some e => (RootProc (h_self h) (RFailed e) trace, h_sent h)
  end.

(** The coordinator alone, fed the messages in the order they arrive. *)
Definition probe_loop (d : driver) (incoming : list (nat * message)) (p : root_proc)
  : root_proc :=
  foldl (λ p im, match r_pc p with
                 | RLoop => (root_recv d im.1 im.2 p).1
                 | _ => p
                 end) p incoming.

(** ** A worker subgroup: [TaskQueueNonRoot] (lines 45-80)

    The members of a subgroup move in lock step through [subcomm.bcast]
    and [subcomm.barrier]; only the member with [subcomm.rank == 0], the
    first of the ids pushed, talks to the coordinator.  A [worker] is that
    leader, cut at its communication calls: about to send a request
    ([WRequest]), blocked in [recv] ([WAwait]), in the loop body with a
    task ([WHold]), out of the loop ([WEnded]), back from the driver
    ([WReturned]), or stopped by an exception ([WFailed]).  [w_up] holds
    the messages it has sent with tag 1 that the coordinator has not taken
    yet, [w_down] the replies with tag 2 it has not taken yet, both oldest
    first: messages between two processes do not overtake each other. *)

Inductive wpc :=
  | WRequest
  | WAwait
  | WHold (task : obj)
  | WEnded
  | WReturned (ret : option (gmap Z obj))
  | WFailed (e : exn).

Record worker := Worker {
  w_rank : nat;
  w_pc : wpc;
  w_up : list message;
  w_down : list message;
  w_trace : list event
}.

Definition worker_start (d : driver) (ids : list nat) : option worker :=
  (λ rank, Worker rank WRequest [] [] (start_trace d ids)) <$> head ids.

(** [get_next], lines 60-62: the request goes out. *)
Definition get_next_send (w : worker) : worker :=
  Worker (w_rank w) WAwait (w_up w ++ [messages_task_req]) (w_down w)
         (w_trace w ++ [EvSend 0 1 messages_task_req]).

(** [get_next], lines 63-68, on the reply [m].  The [StopIteration] of
    line 67 is raised inside the generator [__iter__] (lines 70-72), which
    ends the [for task in self] loop. *)
Definition get_next_recv (m : message) (rest : list message) (w : worker) : worker :=
  let trace := w_trace w ++ [EvRecv 0 2 m; EvSubBcast m] in
  if String.eqb (msg m) (msg messages_end) then
    Worker (w_rank w) WEnded (w_up w) rest trace
  else
    match value m with
    | None => Worker (w_rank w) (WFailed (KeyError (key_str "value"))) (w_up w) rest trace
    | Some task => Worker (w_rank w) (WHold task) (w_up w) rest trace
    end.

(** [send_result] (lines 52-57). *)
Definition send_result (result : obj) (w : worker) : worker :=
  let new_msg := set_value messages_result result in
  Worker (w_rank w) WRequest (w_up w ++ [new_msg]) (w_down w)
         (w_trace w ++ [EvSend 0 1 new_msg; EvBarrier]).

(** The loop body: line 76, lines 187-188, lines 190-193. *)
Definition loop_body (d : driver) (task : obj) (w : worker) : worker :=
  match submitter d with
  | Some f => send_result (f task) w
  | None => Worker (w_rank w) WRequest (w_up w) (w_down w) (w_trace w)
  end.

(** Does the driver broadcast the results at the end? *)
Definition broadcasts (d : driver) : bool :=
  match d with
  | dynamic_parallel_objects None _ => false
  | _ => true
  end.

(** One move of a worker.  [bcast] is the coordinator's [results] once the
    coordinator has reached its broadcast. *)
Definition worker_step (d : driver) (bcast : option (gmap Z obj)) (w : worker)
  : option worker :=
  match w_pc w with
  | WRequest => Some (get_next_send w)
  | WAwait =>
      match w_down w with
      | [] => None
      | m :: rest => Some (get_next_recv m rest w)
      end
  | WHold task => Some (loop_body d task w)
  | WEnded =>
      if broadcasts d then
        match bcast with
        | None => None
        | Some vals =>
            let fin := finish d vals in
            Some (Worker (w_rank w) (WReturned fin.2) (w_up w) (w_down w)
                         (w_trace w ++ fin.1))
        end
      else
        let fin := finish d ∅ in
        Some (Worker (w_rank w) (WReturned fin.2) (w_up w) (w_down w)
                     (w_trace w ++ fin.1))
  | WReturned _ | WFailed _ => None
  end.

(** ** The whole run: the coordinator, the subgroup leaders, the channels *)

Record system := System {
  root : root_proc;
  workers : list worker
}.

Inductive action :=
  | ARoot (k : nat)
  | AWorker (k : nat).

Definition pop_up (rest : list message) (w : worker) : worker :=
  Worker (w_rank w) (w_pc w) rest (w_down w) (w_trace w).

Definition push_down (reply : message) (w : worker) : worker :=
  Worker (w_rank w) (w_pc w) (w_up w) (w_down w ++ [reply]) (w_trace w).

(** [comm.send(msg, dest = ..., tag = 2)] reaches the process of that rank. *)
Definition deliver (dest : nat) (reply : message) (ws : list worker) : list worker :=
  map (λ w, if decide (w_rank w = dest) then push_down reply w else w) ws.

Definition deliver_all (sent : list (nat * message)) (ws : list worker) : list worker :=
  foldl (λ ws p, deliver p.1 p.2 ws) ws sent.

Definition root_vals (p : root_proc) : option (gmap Z obj) :=
  match r_pc p with
  | RReturned _ => Some (results (r_q p))
  | _ => None
  end.

(** [ARoot k]: the probe loop picks up the oldest message of leader [k].
    [AWorker k]: leader [k] makes its next move.  [None] when the move is
    not possible in [s]. *)
Definition step (d : driver) (a : action) (s : system) : option system :=
  match a with
  | ARoot k =>
      match r_pc (root s), workers s !! k with
      | RLoop, Some w =>
          match w_up w with
          | [] => None
          | m :: rest =>
              let r := root_recv d (w_rank w) m (root s) in
              Some (System r.1 (deliver_all r.2 (<[k := pop_up rest w]> (workers s))))
          end
      | _, _ => None
      end
  | AWorker k =>
      match workers s !! k with
      | None => None
      | Some w =>
          match worker_step d (root_vals (root s)) w with
          | None => None
          | Some w' => Some (System (root s) (<[k := w']> (workers s)))
          end
      end
  end.

Fixpoint exec (d : driver) (sched : list action) (s : system) : option system :=
  match sched with
  | [] => Some s
  | a :: sched =>
      match step d a s with
      | None => None
      | Some s' => exec d sched s'
      end
  end.

(** All processes call the driver with the same arguments. *)
Definition start (d : driver) (parallel_capable : bool) (my_size : nat)
    (tasks : list obj) (njobs : Z) : exn + system :=
  match setup_groups parallel_capable my_size 0 njobs with
  | inl e => inl e
  | inr g =>
      inr (System (root_start d tasks g)
                  (omap (worker_start d) (tail (all_new_comms g))))
  end.

End TaskQueue.

(** * Auxiliary definitions for the statements and the invariants *)

Section Specification.

Context {obj : Type}.
Implicit Types (q self : @TaskQueueRoot obj) (m : @message obj) (p : @root_proc obj).
Implicit Types (d : @driver obj) (tr : list (@event obj)).
Implicit Types (tks : list obj) (J : Z) (incoming : list (nat * @message obj)).

Definition recorded (i : Z) (v : obj) self : TaskQueueRoot :=
  mkRoot (njobs self) (tasks self) (<[i := v]> (results self)) (assignments self)
         (_notified self) (_current self) (_remaining self).

Definition told_to_end self : TaskQueueRoot :=
  mkRoot (njobs self) (tasks self) (results self) (assignments self)
         (_notified self + 1) (_current self) (_remaining self).

Definition handed_out (source : nat) self : TaskQueueRoot :=
  mkRoot (njobs self) (tasks self) (results self)
         (<[source := _current self]> (assignments self))
         (_notified self) (_current self + 1) (_remaining self - 1).

(** The seven ways through [handle_assignment]. *)
Inductive handles (source : nat) m self : handled → Prop :=
  | handles_no_value :
      msg m = "result" → value m = None →
      handles source m self (Handled self [] (Some (KeyError (key_str "value"))))
  | handles_unassigned v :
      msg m = "result" → value m = Some v →
      assignments self !! source = None →
      handles source m self (Handled self [] (Some (KeyError (key_rank source))))
  | handles_result v i :
      msg m = "result" → value m = Some v →
      assignments self !! source = Some i →
      handles source m self
        (Handled (recorded i v self) [] (check_notified (recorded i v self)))
  | handles_end :
      msg m = "task_req" → _remaining self = 0 →
      handles source m self
        (Handled (told_to_end self) [(source, messages_end)]
                 (check_notified (told_to_end self)))
  | handles_index :
      msg m = "task_req" → _remaining self ≠ 0 →
      py_getitem (tasks self) (_current self) = None →
      handles source m self (Handled self [] (Some IndexError))
  | handles_task task :
      msg m = "task_req" → _remaining self ≠ 0 →
      py_getitem (tasks self) (_current self) = Some task →
      handles source m self
        (Handled (handed_out source self) [(source, set_value messages_task task)]
                 (check_notified (handed_out source self)))
  | handles_unknown :
      msg m ≠ "result" → msg m ≠ "task_req" →
      handles source m self (Handled self [] (Some RuntimeError)).

(** The task values carried by the task-delivery messages of a trace, in
    the order they were sent. *)
Definition delivery (e : @event obj) : option obj :=
  match e with
  | EvSend _ _ m => if String.eqb (msg m) "next" then value m else None
  | _ => None
  end.

Definition delivered tr : list obj := omap delivery tr.

(** The number of task-requests among the messages that arrived. *)
Definition count_requests (incoming : list (nat * @message obj)) : nat :=
  length (filter (λ im, msg im.2 = "task_req") incoming).

(** The counters of a coordinator created for [tks] and [J] jobs. *)
Record counters_ok (tks : list obj) (J : Z) self : Prop := {
  co_tasks : tasks self = tks;
  co_njobs : njobs self = J;
  co_current : 0 ≤ _current self;
  co_remaining : 0 ≤ _remaining self;
  co_total : _current self + _remaining self = Z.of_nat (length tks);
  co_notified : 0 ≤ _notified self;
  co_drained : 0 < _notified self → _remaining self = 0
}.

(** What holds of the coordinator after it has handled [incoming], whatever
    the messages were. *)
Record alone_ok tks J incoming p : Prop := {
  al_counters : counters_ok tks J (r_q p);
  al_delivered : delivered (r_trace p) = take (Z.to_nat (_current (r_q p))) tks;
  al_assigned : ∀ source t,
    EvSend source 2 (set_value messages_task t) ∈ r_trace p →
    is_Some (assignments (r_q p) !! source);
  al_requests : r_pc p = RLoop →
    Z.of_nat (count_requests incoming) = _current (r_q p) + _notified (r_q p);
  al_loop : r_pc p = RLoop → 1 ≤ J → _notified (r_q p) < J;
  al_returned : ∀ ret, r_pc p = RReturned ret → J ≤ _notified (r_q p)
}.

(** The job count the drivers work with (lines 138-139) and the worker
    groups they cut (line 145). *)
Definition effective_njobs (my_size : nat) (njobs : Z) : Z :=
  if njobs <=? 0 then Z.of_nat my_size - 1 else njobs.

Definition worker_groups (my_size : nat) (J : Z) : list (list nat) :=
  sub_arys (section_sizes (length (arange 1 my_size)) (Z.to_nat J)) (arange 1 my_size).

(** ** Invariants of the whole run *)

(** The leader of rank [rank] holds a task whose result the coordinator
    has not recorded yet: the assignment table maps it to the id of [task]. *)
Definition pending tks q (rank : nat) (task : obj) : Prop :=
  ∃ i, assignments q !! rank = Some i ∧ 0 ≤ i ∧ tks !! Z.to_nat i = Some task.

(** Whatever the table says the leader was last given has its result
    recorded (for a driver whose workers send results). *)
Definition clean d tks q (rank : nat) : Prop :=
  ∀ f i, submitter d = Some f → assignments q !! rank = Some i →
    ∃ task, 0 ≤ i ∧ tks !! Z.to_nat i = Some task ∧ results q !! i = Some (f task).

(** The states a leader and its two channels go through. *)
Inductive worker_ok d tks p : worker → Prop :=
  | ok_request rank tr :
      clean d tks (r_q p) rank →
      worker_ok d tks p (Worker rank WRequest [] [] tr)
  | ok_submitted rank tr f task :
      submitter d = Some f → pending tks (r_q p) rank task →
      worker_ok d tks p
        (Worker rank WRequest [set_value messages_result (f task)] [] tr)
  | ok_asked rank tr :
      clean d tks (r_q p) rank →
      worker_ok d tks p (Worker rank WAwait [messages_task_req] [] tr)
  | ok_submitted_asked rank tr f task :
      submitter d = Some f → pending tks (r_q p) rank task →
      worker_ok d tks p
        (Worker rank WAwait [set_value messages_result (f task); messages_task_req] [] tr)
  | ok_assigned rank tr task :
      pending tks (r_q p) rank task →
      worker_ok d tks p (Worker rank WAwait [] [set_value messages_task task] tr)
  | ok_notified rank tr :
      clean d tks (r_q p) rank →
      worker_ok d tks p (Worker rank WAwait [] [messages_end] tr)
  | ok_hold rank tr task :
      pending tks (r_q p) rank task →
      worker_ok d tks p (Worker rank (WHold task) [] [] tr)
  | ok_ended rank tr :
      clean d tks (r_q p) rank →
      worker_ok d tks p (Worker rank WEnded [] [] tr)
  | ok_returned rank tr :
      clean d tks (r_q p) rank →
      (broadcasts d = true → r_pc p ≠ RLoop) →
      worker_ok d tks p
        (Worker rank (WReturned (finish d (results (r_q p))).2) [] [] tr).

(** The terminate message has been sent to the leader: it is in its
    channel, or the leader has taken it. *)
Definition notified (w : @worker obj) : bool :=
  match w_pc w with
  | WEnded | WReturned _ => true
  | WAwait =>
      match w_down w with
      | m :: _ => String.eqb (msg m) (msg (@messages_end obj))
      | [] => false
      end
  | _ => false
  end.

Definition count_notified (ws : list (@worker obj)) : nat :=
  sum_list_with (λ w, if notified w then 1%nat else 0%nat) ws.

Record root_ok d tks J p : Prop := {
  ro_counters : counters_ok tks J (r_q p);
  ro_pc : (r_pc p = RLoop ∧ _notified (r_q p) < J)
          ∨ (r_pc p = RReturned (finish d (results (r_q p))).2 ∧ _notified (r_q p) = J);
  ro_results : ∀ i v, results (r_q p) !! i = Some v →
    0 ≤ i ∧ ∃ task, tks !! Z.to_nat i = Some task
                    ∧ ∀ f, submitter d = Some f → v = f task
}.

Record system_ok d tks J (ranks : list nat) (s : @system obj) : Prop := {
  so_root : root_ok d tks J (root s);
  so_workers : Forall (worker_ok d tks (root s)) (workers s);
  so_ranks : w_rank <$> workers s = ranks;
  so_notified : Z.of_nat (count_notified (workers s)) = _notified (r_q (root s));
  so_covered : ∀ f i, submitter d = Some f → 0 ≤ i < _current (r_q (root s)) →
    is_Some (results (r_q (root s)) !! i)
    ∨ ∃ rank, rank ∈ ranks ∧ assignments (r_q (root s)) !! rank = Some i
}.

(** The steps still to come, counted from above: five for a task that is
    not handed out yet, and for each leader what its state and its channels
    still cost. *)
Definition pc_cost (c : @wpc obj) : nat :=
  match c with
  | WRequest => 4
  | WAwait => 2
  | WHold _ => 6
  | WEnded => 1
  | WReturned _ | WFailed _ => 0
  end.

Definition down_cost m : nat :=
  if String.eqb (msg m) (msg (@messages_end obj)) then 0 else 5.

Definition worker_cost (w : @worker obj) : nat :=
  (pc_cost (w_pc w) + length (w_up w) + sum_list_with down_cost (w_down w))%nat.

Definition potential (s : @system obj) : nat :=
  (5 * Z.to_nat (_remaining (r_q (root s)))
   + sum_list_with worker_cost (workers s))%nat.

(** Every process has returned from the driver. *)
Definition finished (s : @system obj) : Prop :=
  (∃ ret, r_pc (root s) = RReturned ret)
  ∧ Forall (λ w, ∃ ret, w_pc w = WReturned ret) (workers s).

(** No move is possible. *)
Definition terminal d (s : @system obj) : Prop := ∀ a, step d a s = None.

(** The ranks of the subgroup leaders of a run. *)
Definition leaders (my_size : nat) (J : Z) : list nat :=
  omap head (worker_groups my_size J).

(** What a move of the coordinator cannot change in a worker. *)
Definition view (w : @worker obj) : nat * wpc * list event :=
  (w_rank w, w_pc w, w_trace w).

(** ** The request / assign / submit cycle of a leader, read off its trace *)

Inductive phase := PIdle | PRequested | PAssigned | PDone.

(** One event of the leader's trace moves the cycle on, or breaks it
    ([None]): a request is sent only when idle, a reply is received only
    after a request, a result is sent only for a task that was assigned. *)
Definition advance (ph : phase) (e : @event obj) : option phase :=
  match e with
  | EvSend _ _ m =>
      if String.eqb (msg m) "task_req" then
        match ph with PIdle => Some PRequested | _ => None end
      else if String.eqb (msg m) "result" then
        match ph with PAssigned => Some PIdle | _ => None end
      else None
  | EvRecv _ _ m =>
      match ph with
      | PRequested =>
          if String.eqb (msg m) "no_more_tasks" then Some PDone else Some PAssigned
      | _ => None
      end
  | _ => Some ph
  end.

Definition phase_after tr : option phase :=
  foldl (λ ph e, ph ≫= λ ph, advance ph e) (Some PIdle) tr.

Definition alternating tr : bool := bool_decide (is_Some (phase_after tr)).

Definition phase_of (c : @wpc obj) : phase :=
  match c with
  | WRequest => PIdle
  | WAwait => PRequested
  | WHold _ | WFailed _ => PAssigned
  | WEnded | WReturned _ => PDone
  end.

(** ** The life of the pushed group, read off a trace *)

Definition is_group_event (e : @event obj) : bool :=
  match e with
  | EvPush _ | EvPop => true
  | _ => false
  end.

Definition no_group_event (body : list (@event obj)) : bool :=
  forallb (λ e, negb (is_group_event e)) body.

(** The group was pushed first and is still there. *)
Definition in_group tr : bool :=
  match tr with
  | EvPush _ :: body => no_group_event body
  | _ => false
  end.

(** The last event is the pop, and no event before it touches the group. *)
Fixpoint pop_last (body : list (@event obj)) : bool :=
  match body with
  | [] => false
  | e :: rest =>
      match rest with
      | [] => match e with EvPop => true | _ => false end
      | _ :: _ => negb (is_group_event e) && pop_last rest
      end
  end.

(** The group was pushed first and popped last. *)
Definition group_released tr : bool :=
  match tr with
  | EvPush _ :: body => pop_last body
  | _ => false
  end.

(** Everything the process did, it did between the push and the pop. *)
Definition group_scoped tr : bool := in_group tr || group_released tr.

(** A process has its group from the push on, and once it has returned from
    the driver the pop was the last thing it did. *)
Definition root_group_ok p : bool :=
  match r_pc p with
  | RReturned _ => group_released (r_trace p)
  | _ => in_group (r_trace p)
  end.

Definition worker_group_ok (v : nat * @wpc obj * list (@event obj)) : bool :=
  match v.1.2 with
  | WReturned _ => group_released v.2
  | _ => in_group v.2
  end.

(** The whole life of a leader that is told to end at its first request:
    where it stands and the trace it has, [ids] being its group. *)
Definition first_request_ends d (v : nat * @wpc obj * list (@event obj)) : Prop :=
  ∃ ids,
    match v.1.2 with
    | WRequest => v.2 = start_trace d ids
    | WAwait => v.2 = start_trace d ids ++ [EvSend 0 1 messages_task_req]
    | WEnded =>
        v.2 = start_trace d ids
                ++ [EvSend 0 1 messages_task_req; EvRecv 0 2 messages_end;
                    EvSubBcast messages_end]
    | WReturned ret =>
        v.2 = start_trace d ids
                ++ [EvSend 0 1 messages_task_req; EvRecv 0 2 messages_end;
                    EvSubBcast messages_end]
                ++ (finish d ∅).1
        ∧ ret = (finish d ∅).2
    | WHold _ | WFailed _ => False
    end.

(** The moves there can be with [n] leaders. *)
Definition moves (n : nat) : list action :=
  flat_map (λ k, [ARoot k; AWorker k]) (seq 0 n).

(** ** Further properties: definitions *)

(** The two tables only speak of task ids that have been handed out. *)
Definition tables_bounded self : Prop :=
  (∀ rank i, assignments self !! rank = Some i → 0 ≤ i < _current self)
  ∧ (∀ i, is_Some (results self !! i) → 0 ≤ i < _current self).

(** The destinations of the messages a process has sent, in order. *)
Definition send_dest (e : @event obj) : option nat :=
  match e with
  | EvSend dest _ _ => Some dest
  | _ => None
  end.

Definition replied_to tr : list nat := omap send_dest tr.

(** The sources of the task-requests among the messages, in order. *)
Definition requesters (incoming : list (nat * @message obj)) : list nat :=
  (filter (λ im, msg im.2 = "task_req") incoming).*1.

(** The terminate messages sent. *)
Definition is_terminate (e : @event obj) : bool :=
  match e with
  | EvSend _ _ m => String.eqb (msg m) "no_more_tasks"
  | _ => false
  end.

Definition terminates_sent tr : nat := length (filter (λ e, is_terminate e = true) tr).

End Specification.

(** * Concrete inputs for the examples *)

Definition double (x : Z) : Z := 2 * x.

Definition bogus : @message Z := Message "bogus" None.

(** A schedule of [task_queue] on three processes and three tasks that runs
    to the end, the two leaders taking turns. *)
Definition full_schedule : list action :=
  [AWorker 0; AWorker 1; ARoot 1; ARoot 0; AWorker 0; AWorker 1; AWorker 0;
   AWorker 1; ARoot 0; AWorker 0; ARoot 0; AWorker 0; AWorker 0; AWorker 1;
   ARoot 1; ARoot 1; AWorker 1; AWorker 0; ARoot 0; ARoot 0; AWorker 0;
   AWorker 1; AWorker 0].

(** One leader served twice in a row. *)
Definition two_tasks_schedule : list action :=
  [AWorker 0; ARoot 0; AWorker 0; AWorker 0; AWorker 0; ARoot 0; AWorker 0].

(** One leader: a task, its result, the next request. *)
Definition one_task_schedule : list action :=
  [AWorker 0; ARoot 0; AWorker 0; AWorker 0; AWorker 0].

(** One leader, no task: request, terminate, return. *)
Definition short_schedule : list action :=
  [AWorker 0; ARoot 0; AWorker 0; AWorker 0].

(** * Proofs *)

Section Proofs.

Context {obj : Type}.
Implicit Types (q self : @TaskQueueRoot obj) (m : @message obj) (p : @root_proc obj).
Implicit Types (d : @driver obj) (tr : list (@event obj)).
Implicit Types (tks : list obj) (J : Z) (incoming : list (nat * @message obj)).
Implicit Types (w : @worker obj) (ws : list (@worker obj)) (s : @system obj).

Lemma handle_assignment_spec source m self :
  handles source m self (handle_assignment source m self).
Proof.
  unfold handle_assignment, insert_result, assign_task; simpl.
  destruct (String.eqb_spec (msg m) "result") as [Hr|Hr].
  - destruct (value m) as [v|] eqn:Hv.
    + destruct (assignments self !! source) as [i|] eqn:Ha.
      * by apply (handles_result _ _ _ v i).
      * by apply (handles_unassigned _ _ _ v).
    + by apply handles_no_value.
  - destruct (String.eqb_spec (msg m) "task_req") as [Hq|Hq].
    + destruct (Z.eqb_spec (_remaining self) 0) as [H0|H0].
      * by apply handles_end.
      * destruct (py_getitem (tasks self) (_current self)) as [t|] eqn:Ht.
        -- by apply handles_task.
        -- by apply handles_index.
    + by apply handles_unknown.
Qed.

Lemma check_notified_stop self :
  check_notified self = Some StopIteration ↔ njobs self ≤ _notified self.
Proof.
  unfold check_notified. destruct (Z.geb_spec (_notified self) (njobs self)).
  - split; [lia | done].
  - split; [done | lia].
Qed.

Lemma check_notified_cases self :
  (check_notified self = Some StopIteration ∧ njobs self ≤ _notified self)
  ∨ (check_notified self = None ∧ _notified self < njobs self).
Proof.
  unfold check_notified. destruct (Z.geb_spec (_notified self) (njobs self)).
  - left. split; [done | lia].
  - right. split; [done | lia].
Qed.

Lemma probe_loop_snoc d incoming source m p :
  probe_loop d (incoming ++ [(source, m)]) p =
    match r_pc (probe_loop d incoming p) with
    | RLoop => (root_recv d source m (probe_loop d incoming p)).1
    | _ => probe_loop d incoming p
    end.
Proof. unfold probe_loop. by rewrite foldl_app. Qed.

Lemma probe_loop_app d pre post p :
  probe_loop d (pre ++ post) p = probe_loop d post (probe_loop d pre p).
Proof. unfold probe_loop. by rewrite foldl_app. Qed.

Lemma probe_loop_over d incoming p :
  r_pc p ≠ RLoop → probe_loop d incoming p = p.
Proof.
  induction incoming as [|[source m] incoming IH]; intros Hp; [done|].
  simpl. destruct (r_pc p) eqn:E; try done; rewrite <- E in Hp; by apply IH.
Qed.

(** ** Counters *)

Lemma counters_ok_init tks J : counters_ok tks J (TaskQueueRoot_init tks J).
Proof. split; simpl; try done; lia. Qed.

Lemma py_getitem_current tks J self :
  counters_ok tks J self → _remaining self ≠ 0 →
  py_getitem (tasks self) (_current self) = tks !! Z.to_nat (_current self)
  ∧ is_Some (tks !! Z.to_nat (_current self)).
Proof.
  intros [Ht _ Hc Hr Hs _ _] Hne. unfold py_getitem. rewrite Ht.
  destruct (Z.leb_spec 0 (_current self)); [|lia].
  split; [done|]. apply lookup_lt_is_Some. lia.
Qed.

Lemma handles_counters_ok tks J source m self h :
  handles source m self h → counters_ok tks J self → counters_ok tks J (h_self h).
Proof.
  intros Hh Hok. pose proof Hok as [Ht Hj Hc Hr Hs Hn Hd].
  destruct Hh; simpl; try done; split; simpl; try done; lia.
Qed.

Lemma handles_sent_dest source m self h dest reply :
  handles source m self h → (dest, reply) ∈ h_sent h → dest = source.
Proof.
  intros Hh Hin. destruct Hh; simpl in Hin;
    try (by apply elem_of_nil in Hin);
    apply list_elem_of_singleton in Hin; congruence.
Qed.

Lemma handles_stop source m self h :
  handles source m self h →
  (h_exc h = Some StopIteration → njobs (h_self h) ≤ _notified (h_self h))
  ∧ (h_exc h = None → _notified (h_self h) < njobs (h_self h)).
Proof.
  intros Hh. destruct Hh; simpl; try (split; congruence);
    match goal with |- context [check_notified ?s] =>
      destruct (check_notified_cases s) as [[-> ?]|[-> ?]] end;
    split; intros; simpl in *; try done; lia.
Qed.

(** ** The probe loop on an arbitrary sequence of messages *)

Lemma delivered_app tr1 tr2 : delivered (tr1 ++ tr2) = delivered tr1 ++ delivered tr2.
Proof. apply omap_app. Qed.

Lemma delivered_start d ids : delivered (start_trace d ids) = [].
Proof. by destruct d. Qed.

Lemma delivered_finish d vals : delivered (finish d vals).1 = [].
Proof. by destruct d as [|[]]. Qed.

Lemma finish_no_send d vals dest tag m : EvSend dest tag m ∉ (finish d vals).1.
Proof.
  destruct d as [|[]]; simpl; intros Hin;
    repeat (apply elem_of_cons in Hin as [Hin|Hin]; [done|]);
    by apply elem_of_nil in Hin.
Qed.

Lemma start_no_send d ids dest tag m : EvSend dest tag m ∉ start_trace d ids.
Proof.
  destruct d; simpl; intros Hin;
    repeat (apply elem_of_cons in Hin as [Hin|Hin]; [done|]);
    by apply elem_of_nil in Hin.
Qed.

Lemma count_requests_snoc incoming source m :
  count_requests (incoming ++ [(source, m)]) =
    (count_requests incoming + if decide (msg m = "task_req") then 1 else 0)%nat.
Proof.
  unfold count_requests. rewrite filter_app, length_app. f_equal.
  rewrite filter_cons, filter_nil. simpl. by case_decide.
Qed.

Lemma alone_ok_start d tks g : alone_ok tks (g_njobs g) [] (root_start d tks g).
Proof.
  split; simpl.
  - apply counters_ok_init.
  - by rewrite delivered_start.
  - intros source t Hin. by apply start_no_send in Hin.
  - done.
  - lia.
  - done.
Qed.

Ltac root_recv_cases source m q :=
  unfold root_recv;
  destruct (handle_assignment_spec source m q); simpl;
  try match goal with
      | |- context [check_notified ?s] =>
          let Hn := fresh "Hn" in
          destruct (check_notified_cases s) as [[-> Hn]|[-> Hn]]; simpl in Hn
      end; simpl.


Lemma take_current tks self t :
  0 ≤ _current self → tks !! Z.to_nat (_current self) = Some t →
  take (Z.to_nat (_current self + 1)) tks = take (Z.to_nat (_current self)) tks ++ [t].
Proof.
  intros Hc Ht. replace (Z.to_nat (_current self + 1))
    with (S (Z.to_nat (_current self))) by lia.
  by erewrite take_S_r.
Qed.

Lemma root_recv_alone_ok d tks J incoming source m p :
  alone_ok tks J incoming p → r_pc p = RLoop →
  alone_ok tks J (incoming ++ [(source, m)]) (root_recv d source m p).1.
Proof.
  intros [Hc Hd Ha Hr Hl Hret] Hpc. specialize (Hr Hpc).
  pose proof (handles_counters_ok tks J source m (r_q p) _
                (handle_assignment_spec source m (r_q p)) Hc) as Hc'.
  pose proof Hc as [Ht Hj Hcur Hrem Htot Hnot Hdr].
  split.
  - revert Hc'. by root_recv_cases source m (r_q p).
  - clear Hc'. root_recv_cases source m (r_q p);
      rewrite ?delivered_app, ?delivered_finish, ?app_nil_r; simpl;
      rewrite ?app_nil_r; try done.
    all: destruct (py_getitem_current tks J (r_q p) Hc) as [Hg _]; [done|];
      rewrite Hg in *; rewrite Hd; symmetry; by apply take_current.
  - clear Hc'. intros src t'.
    root_recv_cases source m (r_q p); intros Hin;
      rewrite ?elem_of_app, ?elem_of_cons, ?elem_of_nil in Hin;
      destruct_or?; try done; try (by apply finish_no_send in Hin);
      try (by eapply Ha); simplify_eq; try (by rewrite lookup_insert_eq).
    all: apply Ha in Hin; destruct (decide (source = src)) as [->|];
      [by rewrite lookup_insert_eq | by rewrite lookup_insert_ne].
  - clear Hc'. rewrite count_requests_snoc.
    root_recv_cases source m (r_q p); try done; intros _;
      case_decide; try congruence; lia.
  - clear Hc'. root_recv_cases source m (r_q p); try done; intros _ ?; lia.
  - clear Hc'. intros ret.
    root_recv_cases source m (r_q p); try done; intros _; lia.
Qed.

Lemma probe_loop_alone_ok d tks g incoming :
  alone_ok tks (g_njobs g) incoming (probe_loop d incoming (root_start d tks g)).
Proof.
  induction incoming as [|[source m] incoming IH] using rev_ind.
  - apply alone_ok_start.
  - rewrite probe_loop_snoc.
    destruct (r_pc (probe_loop d incoming (root_start d tks g))) eqn:Hpc.
    + by apply root_recv_alone_ok.
    + destruct IH. split; try done; congruence.
    + destruct IH. split; try done; congruence.
Qed.

Lemma root_recv_pc d source m p :
  r_pc (root_recv d source m p).1 =
    match h_exc (handle_assignment source m (r_q p)) with
    | None => RLoop
    | Some StopIteration =>
        RReturned (finish d (results (h_self (handle_assignment source m (r_q p))))).2
    | Some e => RFailed e
    end.
Proof.
  unfold root_recv. destruct (h_exc _) as [[]|]; done.
Qed.

Lemma handles_runtime_error source m self h :
  handles source m self h →
  h_exc h = Some RuntimeError ↔ msg m ≠ "result" ∧ msg m ≠ "task_req".
Proof.
  intros Hh. destruct Hh; simpl;
    try match goal with |- context [check_notified ?s] =>
      destruct (check_notified_cases s) as [[-> ?]|[-> ?]] end;
    split; try done; intros [? ?]; congruence.
Qed.

(** C7: a message whose kind is neither result-delivery nor task-request
    makes [handle_assignment] raise [RuntimeError], which ends the probe
    loop as a failure: the run is aborted and nothing that arrives later is
    handled.  A message of one of the two kinds never takes that branch. *)
Theorem unknown_message_aborts d incoming source m p :
  r_pc (probe_loop d incoming p) = RLoop →
  (h_exc (handle_assignment source m (r_q (probe_loop d incoming p))) = Some RuntimeError
     ↔ msg m ≠ "result" ∧ msg m ≠ "task_req")
  ∧ (r_pc (probe_loop d (incoming ++ [(source, m)]) p) = RFailed RuntimeError
     ↔ msg m ≠ "result" ∧ msg m ≠ "task_req")
  ∧ (∀ later, msg m ≠ "result" ∧ msg m ≠ "task_req" →
       probe_loop d (incoming ++ (source, m) :: later) p
       = RootProc (r_q (probe_loop d incoming p)) (RFailed RuntimeError)
                  (r_trace (probe_loop d incoming p) ++ [EvRecv source 1 m])).
Proof.
  intros Hpc.
  pose proof (handles_runtime_error source m _ _
    (handle_assignment_spec source m (r_q (probe_loop d incoming p)))) as Hre.
  split; [done|]. split.
  - rewrite probe_loop_snoc, Hpc, root_recv_pc. rewrite <- Hre.
    destruct (h_exc _) as [[]|]; split; congruence.
  - intros later Hm. apply Hre in Hm.
    rewrite (probe_loop_app d incoming ((source, m) :: later)). simpl.
    rewrite Hpc. unfold root_recv. simpl.
    revert Hm.
    destruct (handle_assignment_spec source m (r_q (probe_loop d incoming p)));
      simpl; try done;
      try match goal with |- context [check_notified ?s] =>
        destruct (check_notified_cases s) as [[-> ?]|[-> ?]] end; try done.
    intros _. by rewrite probe_loop_over.
Qed.

(** C2: the coordinator hands the tasks out in the order of the list,
    whoever asks.  The request that arrives after [n] earlier requests is
    answered with task [n], recorded under task id [n] for the requester,
    as long as [n] is below the number of tasks, and with the terminate
    message from then on; at every moment the tasks delivered so far are an
    initial segment of the list, each once; and when the loop has ended
    they are the whole list. *)
Theorem tasks_in_order d tks g incoming :
  1 ≤ g_njobs g →
  let p0 := root_start d tks g in
  (∀ source m,
     r_pc (probe_loop d incoming p0) = RLoop → msg m = "task_req" →
     let h := handle_assignment source m (r_q (probe_loop d incoming p0)) in
     match tks !! count_requests incoming with
     | Some task =>
         h_sent h = [(source, set_value messages_task task)]
         ∧ assignments (h_self h) !! source = Some (Z.of_nat (count_requests incoming))
     | None => h_sent h = [(source, messages_end)]
     end)
  ∧ delivered (r_trace (probe_loop d incoming p0))
    = take (Z.to_nat (_current (r_q (probe_loop d incoming p0)))) tks
  ∧ (∀ ret, r_pc (probe_loop d incoming p0) = RReturned ret →
       delivered (r_trace (probe_loop d incoming p0)) = tks).
Proof.
  intros HJ p0.
  pose proof (probe_loop_alone_ok d tks g incoming) as [Hc Hd Ha Hr Hl Hret].
  fold p0 in Hc, Hd, Ha, Hr, Hl, Hret.
  pose proof Hc as [Ht Hj Hcur Hrem Htot Hnot Hdr].
  split; [|split].
  - intros source m Hpc Hm h. specialize (Hr Hpc). subst h.
    destruct (handle_assignment_spec source m (r_q (probe_loop d incoming p0)));
      try congruence; simpl.
    + (* no task left *)
      rewrite lookup_ge_None_2; [done|]. lia.
    + destruct (py_getitem_current tks _ _ Hc) as [Hg [t Hsome]]; [done|].
      congruence.
    + destruct (py_getitem_current tks _ _ Hc) as [Hg _]; [done|].
      assert (_notified (r_q (probe_loop d incoming p0)) = 0) as Hz by lia.
      assert (count_requests incoming
              = Z.to_nat (_current (r_q (probe_loop d incoming p0)))) as -> by lia.
      rewrite <- Hg. match goal with H : py_getitem _ _ = Some _ |- _ => rewrite H end.
      rewrite lookup_insert_eq. split; [done|]. f_equal. lia.
  - done.
  - intros ret Hpc. rewrite Hd. apply take_ge.
    specialize (Hret ret Hpc). lia.
Qed.

Lemma handles_key_error source m self h k :
  handles source m self h →
  h_exc h = Some (KeyError (key_rank k)) →
  k = source ∧ msg m = "result" ∧ assignments self !! source = None.
Proof.
  intros Hh. destruct Hh; simpl;
    try match goal with |- context [check_notified ?s] =>
      destruct (check_notified_cases s) as [[-> ?]|[-> ?]] end;
    intros ?; simplify_eq; done.
Qed.

(** C10: a result-delivery from a source that has no entry in the
    assignment table makes [insert_result] fail on the dictionary lookup,
    with a [KeyError] for that source, and the loop ends as a failure; when
    every result-delivery that arrives was preceded by a task-delivery to
    its source, no such [KeyError] is raised. *)
Theorem result_from_unassigned_source d tks g incoming :
  let p0 := root_start d tks g in
  (∀ source m v,
     r_pc (probe_loop d incoming p0) = RLoop →
     msg m = "result" → value m = Some v →
     assignments (r_q (probe_loop d incoming p0)) !! source = None →
     insert_result source v (r_q (probe_loop d incoming p0))
       = inl (KeyError (key_rank source))
     ∧ r_pc (probe_loop d (incoming ++ [(source, m)]) p0)
       = RFailed (KeyError (key_rank source)))
  ∧ ((∀ pre source m post,
        incoming = pre ++ (source, m) :: post → msg m = "result" →
        ∃ task, EvSend source 2 (set_value messages_task task)
                  ∈ r_trace (probe_loop d pre p0)) →
     ∀ k, r_pc (probe_loop d incoming p0) ≠ RFailed (KeyError (key_rank k))).
Proof.
  intros p0. split.
  - intros source m v Hpc Hm Hv Ha. split.
    + unfold insert_result. by rewrite Ha.
    + rewrite probe_loop_snoc, Hpc, root_recv_pc.
      destruct (handle_assignment_spec source m (r_q (probe_loop d incoming p0)));
        simpl; congruence.
  - induction incoming as [|[source m] incoming IH] using rev_ind; intros Hpre k.
    + done.
    + rewrite probe_loop_snoc.
      assert (r_pc (probe_loop d incoming p0) ≠ RFailed (KeyError (key_rank k))) as Hbefore.
      { apply IH. intros pre src m' post -> Hm'.
        apply (Hpre pre src m' (post ++ [(source, m)])); [|done].
        by rewrite <- app_assoc. }
      destruct (r_pc (probe_loop d incoming p0)) eqn:Hpc; try (by rewrite Hpc).
      rewrite root_recv_pc.
      destruct (h_exc (handle_assignment source m (r_q (probe_loop d incoming p0))))
        as [e|] eqn:He; [|done].
      destruct e; try done. intros [= ->].
      apply (handles_key_error _ _ _ _ _ (handle_assignment_spec _ _ _)) in He
        as (-> & Hm & Hnone).
      destruct (Hpre incoming source m []) as [task Hin]; [done|done|].
      pose proof (probe_loop_alone_ok d tks g incoming) as Hok.
      apply (al_assigned _ _ _ _ Hok) in Hin. fold p0 in Hin.
      rewrite Hnone in Hin. by destruct Hin.
Qed.

(** ** Process groups *)

Lemma section_sizes_length (n k : nat) :
  (0 < k)%nat → length (section_sizes n k) = k.
Proof.
  intros Hk. unfold section_sizes. rewrite length_app, !length_replicate.
  pose proof (Nat.mod_upper_bound n k). lia.
Qed.

Lemma section_sizes_sum (n k : nat) :
  (0 < k)%nat → sum_list (section_sizes n k) = n.
Proof.
  intros Hk. unfold section_sizes. rewrite sum_list_with_app, !sum_list_replicate.
  pose proof (Nat.mod_upper_bound n k).
  pose proof (Nat.div_mod_eq n k). nia.
Qed.

Lemma section_sizes_elem (n k s : nat) :
  s ∈ section_sizes n k → s = (n / k)%nat ∨ s = (n / k + 1)%nat.
Proof.
  unfold section_sizes. rewrite elem_of_app.
  intros [H|H]; apply elem_of_replicate in H as [-> _]; auto.
Qed.

Lemma sub_arys_length sizes ary : length (sub_arys sizes ary) = length sizes.
Proof. revert ary. induction sizes; intros; simpl; [done | by rewrite IHsizes]. Qed.

(** Cutting a run of consecutive numbers by sizes that add up to its
    length. *)
Lemma sub_arys_seq sizes (a n : nat) :
  sum_list sizes = n →
  concat (sub_arys sizes (seq a n)) = seq a n
  ∧ length <$> sub_arys sizes (seq a n) = sizes
  ∧ ∀ grp, grp ∈ sub_arys sizes (seq a n) → ∃ b, grp = seq b (length grp).
Proof.
  revert a n. induction sizes as [|s sizes IH]; intros a n Hsum; simpl in *.
  - subst n. split; [done|]. split; [done|]. intros grp Hin. by apply elem_of_nil in Hin.
  - rewrite take_seq, drop_seq.
    replace (s `min` n)%nat with s by lia.
    destruct (IH (a + s)%nat (n - s)%nat) as (Hc & Hl & Hg); [lia|].
    split; [|split].
    + rewrite Hc, <- seq_app. f_equal. lia.
    + rewrite length_seq. f_equal. exact Hl.
    + intros grp [->|Hin]%elem_of_cons; [|by apply Hg].
      exists a. by rewrite length_seq.
Qed.

Lemma elem_of_concat (gs : list (list nat)) x :
  x ∈ concat gs ↔ ∃ g, g ∈ gs ∧ x ∈ g.
Proof.
  induction gs as [|g0 gs IH]; simpl.
  - split; [by intros ?%elem_of_nil | by intros (? & ?%elem_of_nil & _)].
  - rewrite elem_of_app, IH. split.
    + intros [?|(g & ? & ?)]; [exists g0 | exists g]; split; try done;
        [apply list_elem_of_here | by apply list_elem_of_further].
    + intros (g & [->|?]%elem_of_cons & ?); [by left | right; eauto].
Qed.

Lemma NoDup_concat_lookup (gs : list (list nat)) i j g g' x :
  NoDup (concat gs) → gs !! i = Some g → gs !! j = Some g' →
  x ∈ g → x ∈ g' → i = j.
Proof.
  revert i j. induction gs as [|g0 gs IH]; intros i j Hnd Hi Hj Hx Hx'; [done|].
  simpl in Hnd. apply NoDup_app in Hnd as (_ & Hdis & Hnd).
  assert (∀ k h, gs !! k = Some h → x ∈ h → x ∈ concat gs) as Hin.
  { intros k h Hk Hh. apply elem_of_concat. exists h. split; [|done].
    by eapply list_elem_of_lookup_2. }
  destruct i as [|i], j as [|j]; simpl in *; simplify_eq; try done.
  - exfalso. eapply Hdis; [exact Hx|]. by eapply Hin.
  - exfalso. eapply Hdis; [exact Hx'|]. by eapply Hin.
  - f_equal. by eapply IH.
Qed.

Lemma worker_groups_props (my_size : nat) J :
  1 ≤ J < Z.of_nat my_size →
  length (worker_groups my_size J) = Z.to_nat J
  ∧ concat (worker_groups my_size J) = seq 1 (my_size - 1)
  ∧ (∀ grp, grp ∈ worker_groups my_size J → ∃ b, grp = seq b (length grp))
  ∧ (∀ grp grp', grp ∈ worker_groups my_size J → grp' ∈ worker_groups my_size J →
       (length grp ≤ length grp' + 1)%nat)
  ∧ (∀ grp, grp ∈ worker_groups my_size J → grp ≠ []).
Proof.
  intros HJ. unfold worker_groups, arange. rewrite length_seq.
  set (n := (my_size - 1)%nat). set (k := Z.to_nat J).
  assert (0 < k)%nat as Hk by lia.
  assert (k ≤ n)%nat as Hkn by lia.
  destruct (sub_arys_seq (section_sizes n k) 1 n) as (Hc & Hl & Hg);
    [by apply section_sizes_sum|].
  assert (∀ grp, grp ∈ sub_arys (section_sizes n k) (seq 1 n) →
            length grp = (n / k)%nat ∨ length grp = (n / k + 1)%nat) as Hlen.
  { intros grp Hin. apply section_sizes_elem. rewrite <- Hl.
    by apply list_elem_of_fmap_2. }
  split; [by rewrite sub_arys_length, section_sizes_length|].
  split; [done|]. split; [done|]. split.
  - intros grp grp' Hin Hin'. apply Hlen in Hin, Hin'. lia.
  - intros grp Hin ->. apply Hlen in Hin. simpl in Hin.
    pose proof (Nat.div_str_pos n k). lia.
Qed.

Lemma setup_groups_ok (my_size my_rank : nat) (njobs : Z) :
  let J := effective_njobs my_size njobs in
  1 ≤ J < Z.of_nat my_size → (my_rank < my_size)%nat →
  ∃ i grp,
    setup_groups true my_size my_rank njobs
      = inr (Groups J ([0%nat] :: worker_groups my_size J) i)
    ∧ ([0%nat] :: worker_groups my_size J) !! i = Some grp
    ∧ my_rank ∈ grp
    ∧ ∀ j grp', ([0%nat] :: worker_groups my_size J) !! j = Some grp' →
                my_rank ∈ grp' → j = i.
Proof.
  intros J HJ Hrank.
  destruct (worker_groups_props my_size J HJ) as (_ & Hc & _).
  unfold setup_groups. simpl. fold (effective_njobs my_size njobs). fold J.
  destruct (Z.geb_spec J (Z.of_nat my_size)); [lia|].
  unfold array_split. destruct (Z.leb_spec J 0); [lia|].
  fold (worker_groups my_size J).
  set (all := [0%nat] :: worker_groups my_size J).
  assert (concat all = seq 0 my_size) as Hall.
  { unfold all. simpl. rewrite Hc. destruct my_size; [lia|].
    simpl. by rewrite Nat.sub_0_r. }
  assert (∃ grp, grp ∈ all ∧ my_rank ∈ grp) as (grp0 & Hin0 & Hr0).
  { apply elem_of_concat. rewrite Hall. apply elem_of_seq. lia. }
  unfold find_group.
  destruct (list_find_elem_of (λ comm_set, my_rank ∈ comm_set) all grp0)
    as [[i grp] Hfind]; [done..|].
  rewrite Hfind. simpl. apply list_find_Some in Hfind as (Hi & Hr & _).
  exists i, grp. split; [done|]. split; [done|]. split; [done|].
  intros j grp' Hj Hr'.
  eapply (NoDup_concat_lookup all); [|exact Hj|exact Hi|exact Hr'|exact Hr].
  rewrite Hall. apply NoDup_seq.
Qed.

(** C8: on [my_size] > 1 processes and for a job count [njobs] with
    1 ≤ [njobs] < [my_size], the drivers cut the ranks 1 .. [my_size] - 1
    into exactly [njobs] groups of consecutive ranks, in rank order, whose
    sizes differ by at most one, put the group [[0]] of the coordinator in
    front, and find for the calling process the one index of the group
    that holds its rank. *)
Theorem partition_groups (my_size my_rank : nat) (njobs : Z) :
  (1 < my_size)%nat → 1 ≤ njobs < Z.of_nat my_size → (my_rank < my_size)%nat →
  ∃ split i grp,
    setup_groups true my_size my_rank njobs = inr (Groups njobs ([0%nat] :: split) i)
    ∧ length split = Z.to_nat njobs
    ∧ concat split = seq 1 (my_size - 1)
    ∧ (∀ grp, grp ∈ split → ∃ b, grp = seq b (length grp))
    ∧ (∀ grp grp', grp ∈ split → grp' ∈ split → (length grp ≤ length grp' + 1)%nat)
    ∧ ([0%nat] :: split) !! i = Some grp
    ∧ my_rank ∈ grp
    ∧ ∀ j grp', ([0%nat] :: split) !! j = Some grp' → my_rank ∈ grp' → j = i.
Proof.
  intros _ HJ Hrank.
  assert (effective_njobs my_size njobs = njobs) as HE.
  { unfold effective_njobs. destruct (Z.leb_spec njobs 0); lia. }
  destruct (setup_groups_ok my_size my_rank njobs) as (i & grp & Hs & Hi & Hr & Hu);
    rewrite ?HE; try done.
  rewrite HE in *.
  destruct (worker_groups_props my_size njobs HJ) as (Hl & Hc & Hg & Hd & _).
  exists (worker_groups my_size njobs), i, grp. done.
Qed.

(** ** Calling the drivers with a bad job count *)

(** C4, as the code has it: with a job count of at least the number of
    processes, or with fewer than two processes ([parallel_capable] being
    true only when there are at least two), the body of either driver
    raises at its guard, before any group is pushed and before any message:
    it yields no event at all.  For [task_queue] that happens at the call.
    [dynamic_parallel_objects] is a generator: the call returns the
    generator and the body raises at the first [next]. *)
Theorem bad_job_count_raises d (parallel_capable : bool) (my_size my_rank : nat) (njobs : Z) :
  (parallel_capable = true → (1 < my_size)%nat) →
  Z.of_nat my_size ≤ njobs ∨ (my_size < 2)%nat →
  enter d parallel_capable my_size my_rank njobs = inl RunTimeError
  ∧ match d with
    | task_queue _ =>
        call d parallel_capable my_size my_rank njobs = CallRaised RunTimeError
    | dynamic_parallel_objects _ _ =>
        call d parallel_capable my_size my_rank njobs = CallGenerator
        ∧ first_next d parallel_capable my_size my_rank njobs = Some (inl RunTimeError)
    end.
Proof.
  intros Hpc Hbad.
  assert (setup_groups parallel_capable my_size my_rank njobs = inl RunTimeError) as Hs.
  { unfold setup_groups. destruct parallel_capable; [|done]. simpl.
    specialize (Hpc eq_refl).
    destruct Hbad as [Hbad|Hbad]; [|lia].
    destruct (Z.leb_spec njobs 0); [lia|].
    destruct (Z.geb_spec njobs (Z.of_nat my_size)); [done|lia]. }
  assert (enter d parallel_capable my_size my_rank njobs = inl RunTimeError) as He.
  { unfold enter. by rewrite Hs. }
  split; [done|]. destruct d; simpl.
  - by rewrite He.
  - by rewrite He.
Qed.

(** ** Lists of workers *)

Lemma sum_list_with_insert {A} (f : A → nat) (l : list A) k x y :
  l !! k = Some x →
  (sum_list_with f (<[k := y]> l) + f x = sum_list_with f l + f y)%nat.
Proof.
  revert k. induction l as [|a l IH]; intros k Hk; [done|].
  destruct k as [|k]; simpl in *.
  - simplify_eq. lia.
  - specialize (IH k Hk). lia.
Qed.

Lemma count_notified_insert ws k w w' :
  ws !! k = Some w → notified w' = notified w →
  count_notified (<[k := w']> ws) = count_notified ws.
Proof.
  intros Hk Hn. unfold count_notified.
  pose proof (sum_list_with_insert (λ w, if notified w then 1%nat else 0%nat)
                ws k w w' Hk) as H. simpl in H. rewrite Hn in H. lia.
Qed.

Lemma count_notified_le ws : (count_notified ws ≤ length ws)%nat.
Proof.
  unfold count_notified. induction ws as [|w ws IH]; simpl; [done|].
  destruct (notified w); lia.
Qed.

Lemma count_notified_all ws :
  count_notified ws = length ws → Forall (λ w, notified w = true) ws.
Proof.
  unfold count_notified. induction ws as [|w ws IH]; simpl; [done|].
  pose proof (count_notified_le ws) as Hle. unfold count_notified in Hle.
  destruct (notified w) eqn:Hw; intros H; [|lia].
  constructor; [done|]. apply IH. lia.
Qed.

Lemma count_notified_Forall ws :
  Forall (λ w, notified w = true) ws → count_notified ws = length ws.
Proof.
  unfold count_notified. induction 1 as [|w ws Hw _ IH]; simpl; [done|].
  rewrite Hw, IH. done.
Qed.

Lemma deliver_insert ws k w w0 reply :
  NoDup (w_rank <$> ws) → ws !! k = Some w → w_rank w0 = w_rank w →
  deliver (w_rank w) reply (<[k := w0]> ws) = <[k := push_down reply w0]> ws.
Proof.
  intros Hnd Hk Hr. apply list_eq. intros i. unfold deliver.
  rewrite list_lookup_fmap.
  destruct (decide (i = k)) as [->|Hne].
  - rewrite !list_lookup_insert_eq by (by eapply lookup_lt_Some). simpl.
    rewrite Hr. by rewrite decide_True.
  - rewrite !list_lookup_insert_ne by done.
    destruct (ws !! i) as [wi|] eqn:Hi; [|done]. simpl.
    rewrite decide_False; [done|]. intros Heq. apply Hne.
    eapply NoDup_lookup; [exact Hnd| |].
    + rewrite list_lookup_fmap, Hi. simpl. by rewrite Heq.
    + by rewrite list_lookup_fmap, Hk.
Qed.

Lemma ranks_insert ws k w w' :
  ws !! k = Some w → w_rank w' = w_rank w →
  w_rank <$> <[k := w']> ws = w_rank <$> ws.
Proof.
  intros Hk Hr. rewrite list_fmap_insert, Hr.
  apply list_insert_id. by rewrite list_lookup_fmap, Hk.
Qed.

(** ** One move of a worker *)

Lemma finish_without_bcast d vals vals' :
  broadcasts d = false → finish d vals = finish d vals'.
Proof. by destruct d as [|[]]. Qed.

Lemma root_vals_Some p vals :
  root_vals p = Some vals → vals = results (r_q p) ∧ r_pc p ≠ RLoop.
Proof. unfold root_vals. destruct (r_pc p); intros; by simplify_eq. Qed.

Lemma clean_without_submitter d tks q rank :
  submitter d = None → clean d tks q rank.
Proof. intros Hs f i Hf. congruence. Qed.

Lemma worker_step_ok d tks p w w' :
  worker_ok d tks p w → worker_step d (root_vals p) w = Some w' →
  worker_ok d tks p w' ∧ w_rank w' = w_rank w ∧ notified w' = notified w
  ∧ (worker_cost w' < worker_cost w)%nat.
Proof.
  intros Hok. destruct Hok; unfold worker_step; simpl; intros Hstep;
    simplify_eq; try done.
  all: try (split; [by econstructor|];
            unfold worker_cost; simpl; split; [done|]; split; [done|]; lia).
  - unfold loop_body. destruct (submitter d) as [f|] eqn:Hs; simpl.
    + split; [by econstructor|]. unfold worker_cost. simpl. split; [done|]. split; [done|]. lia.
    + split; [constructor; by apply clean_without_submitter|].
      unfold worker_cost. simpl. split; [done|]. split; [done|]. lia.
  - destruct (broadcasts d) eqn:Hb.
    + destruct (root_vals p) as [vals|] eqn:Hv; [|done]. simplify_eq.
      apply root_vals_Some in Hv as [-> Hpc].
      split; [by constructor|]. unfold worker_cost. simpl. split; [done|]. split; [done|]. lia.
    + simplify_eq. rewrite (finish_without_bcast d ∅ (results (r_q p))) by done.
      split; [constructor; [done|congruence]|].
      unfold worker_cost. simpl. split; [done|]. split; [done|]. lia.
Qed.

(** ** One turn of the probe loop *)

Lemma worker_ok_frame d tks p p' w :
  worker_ok d tks p w → r_pc p = RLoop →
  assignments (r_q p') !! w_rank w = assignments (r_q p) !! w_rank w →
  (∀ i f task, submitter d = Some f → 0 ≤ i → tks !! Z.to_nat i = Some task →
     results (r_q p) !! i = Some (f task) → results (r_q p') !! i = Some (f task)) →
  worker_ok d tks p' w.
Proof.
  intros Hok Hpc Ha Hres.
  assert (∀ rank, assignments (r_q p') !! rank = assignments (r_q p) !! rank →
            clean d tks (r_q p) rank → clean d tks (r_q p') rank) as Hclean.
  { intros rank Hr Hc f i Hf Hi. rewrite Hr in Hi.
    destruct (Hc f i Hf Hi) as (task & H0 & Ht & Hv). exists task. eauto. }
  assert (∀ rank task, assignments (r_q p') !! rank = assignments (r_q p) !! rank →
            pending tks (r_q p) rank task → pending tks (r_q p') rank task) as Hpend.
  { intros rank task Hr (i & Hi & H0 & Ht). exists i. by rewrite Hr. }
  destruct Hok; simpl in *; try (by econstructor; eauto).
  rewrite (finish_without_bcast d (results (r_q p)) (results (r_q p'))).
  - constructor; [by apply Hclean|]. intros Hb. by destruct H0.
  - destruct (broadcasts d); [by destruct H0|done].
Qed.

Lemma Forall_insert_frame {A} (P Q : A → Prop) (l : list A) k x y :
  Forall P l → l !! k = Some x → Q y →
  (∀ j z, j ≠ k → l !! j = Some z → P z → Q z) →
  Forall Q (<[k := y]> l).
Proof.
  intros HP Hk Hy Hframe. apply Forall_lookup. intros j z Hj.
  destruct (decide (j = k)) as [->|Hne].
  - rewrite list_lookup_insert_eq in Hj by (by eapply lookup_lt_Some). by simplify_eq.
  - rewrite list_lookup_insert_ne in Hj by done.
    eapply Hframe; [done..|]. by eapply Forall_lookup_1.
Qed.

Lemma root_ok_loop d tks J p :
  root_ok d tks J p → r_pc p = RLoop → _notified (r_q p) < J.
Proof. intros [_ [[_ ?]|[? _]] _] Hpc; [done|congruence]. Qed.

Lemma root_recv_result d tks J p rank f task :
  root_ok d tks J p → r_pc p = RLoop →
  submitter d = Some f → pending tks (r_q p) rank task →
  ∃ i tr', assignments (r_q p) !! rank = Some i ∧ 0 ≤ i
    ∧ tks !! Z.to_nat i = Some task
    ∧ root_recv d rank (set_value messages_result (f task)) p
      = (RootProc (recorded i (f task) (r_q p)) RLoop tr', []).
Proof.
  intros Hroot Hpc Hf (i & Hi & H0 & Ht).
  pose proof (root_ok_loop _ _ _ _ Hroot Hpc) as Hlt.
  destruct Hroot as [[_ Hj _ _ _ _ _] _ _].
  exists i. unfold root_recv, handle_assignment, insert_result. simpl.
  rewrite Hi. simpl. fold (recorded i (f task) (r_q p)).
  destruct (check_notified_cases (recorded i (f task) (r_q p))) as [[-> Hn]|[-> Hn]];
    simpl in *; [lia|]. eauto 10.
Qed.

Lemma root_recv_request_end d tks J p rank :
  root_ok d tks J p → r_pc p = RLoop → _remaining (r_q p) = 0 →
  ∃ pc' tr',
    root_recv d rank messages_task_req p
      = (RootProc (told_to_end (r_q p)) pc' tr', [(rank, messages_end)])
    ∧ ((pc' = RLoop ∧ _notified (r_q p) + 1 < J)
       ∨ (pc' = RReturned (finish d (results (r_q p))).2 ∧ _notified (r_q p) + 1 = J)).
Proof.
  intros Hroot Hpc Hrem.
  pose proof (root_ok_loop _ _ _ _ Hroot Hpc) as Hlt.
  destruct Hroot as [[_ Hj _ _ _ _ _] _ _].
  unfold root_recv, handle_assignment, assign_task. simpl.
  destruct (Z.eqb_spec (_remaining (r_q p)) 0); [|done].
  simpl. fold (told_to_end (r_q p)).
  destruct (check_notified_cases (told_to_end (r_q p))) as [[-> Hn]|[-> Hn]];
    simpl in *.
  - eexists _, _. split; [done|]. right. split; [done|]. lia.
  - eexists _, _. split; [done|]. left. split; [done|]. lia.
Qed.

Lemma root_recv_request_task d tks J p rank :
  root_ok d tks J p → r_pc p = RLoop → _remaining (r_q p) ≠ 0 →
  ∃ task tr',
    tks !! Z.to_nat (_current (r_q p)) = Some task
    ∧ root_recv d rank messages_task_req p
      = (RootProc (handed_out rank (r_q p)) RLoop tr',
         [(rank, set_value messages_task task)]).
Proof.
  intros Hroot Hpc Hrem.
  pose proof (root_ok_loop _ _ _ _ Hroot Hpc) as Hlt.
  destruct Hroot as [Hc _ _].
  destruct (py_getitem_current tks J (r_q p) Hc Hrem) as [Hg [task Ht]].
  destruct Hc as [_ Hj _ _ _ _ _].
  unfold root_recv, handle_assignment, assign_task. simpl.
  destruct (Z.eqb_spec (_remaining (r_q p)) 0); [done|].
  rewrite Hg, Ht. simpl. fold (handed_out rank (r_q p)).
  destruct (check_notified_cases (handed_out rank (r_q p))) as [[-> Hn]|[-> Hn]];
    simpl in *; [lia|]. eauto 10.
Qed.

Lemma rank_lookup_ne ws j k wj wk :
  NoDup (w_rank <$> ws) → ws !! j = Some wj → ws !! k = Some wk → j ≠ k →
  w_rank wj ≠ w_rank wk.
Proof.
  intros Hnd Hj Hk Hne Heq. apply Hne.
  eapply NoDup_lookup; [exact Hnd| |].
  - by rewrite list_lookup_fmap, Hj.
  - rewrite list_lookup_fmap, Hk. simpl. by rewrite Heq.
Qed.

Lemma root_step_ok d tks J ranks s k s' :
  NoDup ranks → system_ok d tks J ranks s → step d (ARoot k) s = Some s' →
  system_ok d tks J ranks s' ∧ (potential s' < potential s)%nat.
Proof.
  intros Hnd [Hroot Hws Hranks Hcnt Hcov] Hstep. subst ranks.
  unfold step in Hstep.
  destruct (r_pc (root s)) eqn:Hpc; try done.
  destruct (workers s !! k) as [w|] eqn:Hk; try done.
  destruct (w_up w) as [|m rest] eqn:Hup; try done. simplify_eq.
  pose proof (Forall_lookup_1 _ _ _ _ Hws Hk) as Hw.
  pose proof Hnd as Hnd'.
  pose proof Hroot as [Hc _ Hres]. pose proof Hc as [_ _ Hcur Hrem Htot Hnot Hdr].
  pose proof (root_ok_loop _ _ _ _ Hroot Hpc) as Hlt.
  assert (w_rank w ∈ w_rank <$> workers s) as Hin.
  { apply list_elem_of_fmap. exists w. split; [done|].
    by eapply list_elem_of_lookup_2. }
  destruct Hw as [| rank tr f task Hf Hp | rank tr Hcl | rank tr f task Hf Hp | | | | |];
    simpl in Hup; simplify_eq; simpl.
  - (* a result arrives, nothing behind it *)
    destruct (root_recv_result d tks J (root s) rank f task) as (i & tr' & Hi & H0 & Ht & ->);
      try done. simpl.
    split; [split; simpl|].
    + split; simpl; [by destruct Hc| by left |].
      intros i' v'. destruct (decide (i = i')) as [<-|].
      * rewrite lookup_insert_eq. intros [= <-]. split; [done|].
        exists task. split; [done|]. intros f' ?. congruence.
      * rewrite lookup_insert_ne by done. apply Hres.
    + eapply Forall_insert_frame; [exact Hws|exact Hk| |].
      * constructor. intros f' i' Hf' Hi'. simpl in *. simplify_eq.
        exists task. by rewrite lookup_insert_eq.
      * intros j z Hne Hj Hz. eapply worker_ok_frame; [exact Hz|done|done|].
        simpl. intros i' f' task' Hf' H0' Ht' Hv'.
        destruct (decide (i = i')) as [<-|]; [|by rewrite lookup_insert_ne].
        rewrite lookup_insert_eq. congruence.
    + by erewrite ranks_insert.
    + by erewrite count_notified_insert.
    + intros f' i' Hf' Hi'. destruct (Hcov f' i' Hf' Hi') as [[v Hv]|Hr]; [|by right].
      left. destruct (decide (i = i')) as [<-|].
      * rewrite lookup_insert_eq. eauto.
      * rewrite lookup_insert_ne by done. eauto.
    + unfold potential. simpl.
      pose proof (sum_list_with_insert worker_cost (workers s) k _
                    (pop_up [] (Worker rank WRequest [set_value messages_result (f task)] [] tr)) Hk) as Hsum.
      unfold worker_cost in Hsum at 2 4. simpl in Hsum. lia.
  - (* a request *)
    destruct (decide (_remaining (r_q (root s)) = 0)) as [Hz|Hnz].
    + destruct (root_recv_request_end d tks J (root s) rank) as (pc' & tr' & -> & Hpc');
        try done. simpl.
      unfold deliver_all. simpl.
      rewrite (deliver_insert (workers s) k (Worker rank WAwait [messages_task_req] [] tr))
        by done. unfold push_down, pop_up. simpl.
      split; [split; simpl|].
      * split; simpl; [destruct Hc; split; simpl; try done; lia | | done].
        destruct Hpc' as [[-> ?]|[-> ?]]; [by left | by right].
      * eapply Forall_insert_frame; [exact Hws|exact Hk| |].
        -- by constructor.
        -- intros j z Hne Hj Hz'. by eapply worker_ok_frame.
      * by erewrite ranks_insert.
      * pose proof (sum_list_with_insert (λ w, if notified w then 1%nat else 0%nat)
                      (workers s) k _
                      (Worker rank WAwait [] [messages_end] tr) Hk) as Hsum.
        unfold count_notified in *. simpl in Hsum. lia.
      * done.
      * unfold potential. simpl.
        pose proof (sum_list_with_insert worker_cost (workers s) k _
                      (Worker rank WAwait [] [messages_end] tr) Hk) as Hsum.
        unfold worker_cost in Hsum at 2 4. simpl in Hsum. lia.
    + destruct (root_recv_request_task d tks J (root s) rank) as (task & tr' & Ht & ->);
        try done. simpl.
      unfold deliver_all. simpl.
      rewrite (deliver_insert (workers s) k (Worker rank WAwait [messages_task_req] [] tr))
        by done. unfold push_down, pop_up. simpl.
      split; [split; simpl|].
      * split; simpl; [|by left|done].
        destruct Hc. split; simpl; try done; lia.
      * eapply Forall_insert_frame; [exact Hws|exact Hk| |].
        -- constructor. exists (_current (r_q (root s))). simpl.
           by rewrite lookup_insert_eq.
        -- intros j z Hne Hj Hz'. eapply worker_ok_frame; [exact Hz'|done| |done].
           simpl. rewrite lookup_insert_ne; [done|].
           intros Heq. by apply (rank_lookup_ne (workers s) j k z _ Hnd Hj Hk Hne).
      * by erewrite ranks_insert.
      * pose proof (sum_list_with_insert (λ w, if notified w then 1%nat else 0%nat)
                      (workers s) k _
                      (Worker rank WAwait [] [set_value messages_task task] tr) Hk) as Hsum.
        unfold count_notified in *. simpl in Hsum. lia.
      * intros f' i' Hf' Hi'.
        destruct (decide (i' = _current (r_q (root s)))) as [->|Hne].
        { right. exists rank. split; [done|]. by rewrite lookup_insert_eq. }
        destruct (Hcov f' i' Hf' ltac:(lia)) as [Hv|(rank' & Hr' & Ha')]; [by left|].
        destruct (decide (rank' = rank)) as [->|Hner].
        -- left. destruct (Hcl f' i' Hf' Ha') as (task' & _ & _ & Hv). eauto.
        -- right. exists rank'. split; [done|]. by rewrite lookup_insert_ne.
      * unfold potential. simpl.
        pose proof (sum_list_with_insert worker_cost (workers s) k _
                      (Worker rank WAwait [] [set_value messages_task task] tr) Hk) as Hsum.
        unfold worker_cost in Hsum at 2 4. simpl in Hsum. lia.
  - (* a result arrives, the next request behind it *)
    destruct (root_recv_result d tks J (root s) rank f task) as (i & tr' & Hi & H0 & Ht & ->);
      try done. simpl.
    split; [split; simpl|].
    + split; simpl; [by destruct Hc| by left |].
      intros i' v'. destruct (decide (i = i')) as [<-|].
      * rewrite lookup_insert_eq. intros [= <-]. split; [done|].
        exists task. split; [done|]. intros f' ?. congruence.
      * rewrite lookup_insert_ne by done. apply Hres.
    + eapply Forall_insert_frame; [exact Hws|exact Hk| |].
      * constructor. intros f' i' Hf' Hi'. simpl in *. simplify_eq.
        exists task. by rewrite lookup_insert_eq.
      * intros j z Hne Hj Hz. eapply worker_ok_frame; [exact Hz|done|done|].
        simpl. intros i' f' task' Hf' H0' Ht' Hv'.
        destruct (decide (i = i')) as [<-|]; [|by rewrite lookup_insert_ne].
        rewrite lookup_insert_eq. congruence.
    + by erewrite ranks_insert.
    + by erewrite count_notified_insert.
    + intros f' i' Hf' Hi'. destruct (Hcov f' i' Hf' Hi') as [[v Hv]|Hr]; [|by right].
      left. destruct (decide (i = i')) as [<-|].
      * rewrite lookup_insert_eq. eauto.
      * rewrite lookup_insert_ne by done. eauto.
    + unfold potential. simpl.
      pose proof (sum_list_with_insert worker_cost (workers s) k _
                    (pop_up [messages_task_req] (Worker rank WAwait [set_value messages_result (f task); messages_task_req] [] tr)) Hk) as Hsum.
      unfold worker_cost in Hsum at 2 4. simpl in Hsum. lia.
Qed.

(** ** Any move, any schedule *)

Lemma worker_move_ok d tks J ranks s k s' :
  system_ok d tks J ranks s → step d (AWorker k) s = Some s' →
  system_ok d tks J ranks s' ∧ (potential s' < potential s)%nat.
Proof.
  intros [Hroot Hws Hranks Hcnt Hcov] Hstep. unfold step in Hstep.
  destruct (workers s !! k) as [w|] eqn:Hk; [|done].
  destruct (worker_step d (root_vals (root s)) w) as [w'|] eqn:Hw'; [|done].
  injection Hstep as <-.
  destruct (worker_step_ok d tks (root s) w w') as (Hok & Hr & Hn & Hcost);
    [by eapply Forall_lookup_1|done|].
  split; [split; simpl; try done|].
  - by apply Forall_insert.
  - by erewrite ranks_insert.
  - by erewrite count_notified_insert.
  - unfold potential. simpl.
    pose proof (sum_list_with_insert worker_cost (workers s) k w w' Hk). lia.
Qed.

Lemma step_ok d tks J ranks s a s' :
  NoDup ranks → system_ok d tks J ranks s → step d a s = Some s' →
  system_ok d tks J ranks s' ∧ (potential s' < potential s)%nat.
Proof.
  intros Hnd Hok Hstep. destruct a.
  - by eapply root_step_ok.
  - by eapply worker_move_ok.
Qed.

Lemma exec_ok d tks J ranks sched s s' :
  NoDup ranks → system_ok d tks J ranks s → exec d sched s = Some s' →
  system_ok d tks J ranks s' ∧ (length sched + potential s' ≤ potential s)%nat.
Proof.
  intros Hnd. revert s. induction sched as [|a sched IH]; intros s Hok Hexec; simpl in *.
  - simplify_eq. split; [done|lia].
  - destruct (step d a s) as [s1|] eqn:Hstep; [|done].
    destruct (step_ok d tks J ranks s a s1 Hnd Hok Hstep) as [Hok1 Hlt].
    destruct (IH s1 Hok1 Hexec) as [Hok' Hle]. split; [done|lia].
Qed.

(** ** The start of a run *)

Lemma elem_of_heads (gs : list (list nat)) x :
  x ∈ omap head gs → x ∈ concat gs.
Proof.
  induction gs as [|g gs IH]; simpl; [done|].
  destruct g as [|y g]; simpl; [done|].
  intros [->|Hin]%elem_of_cons; [left|].
  right. apply elem_of_app. right. by apply IH.
Qed.

Lemma NoDup_heads (gs : list (list nat)) :
  NoDup (concat gs) → NoDup (omap head gs).
Proof.
  induction gs as [|g gs IH]; simpl; [constructor|].
  intros (Hg & Hdis & Hgs)%NoDup_app.
  destruct g as [|y g]; simpl; [by apply IH|].
  constructor; [|by apply IH].
  intros Hin%elem_of_heads. eapply Hdis; [|exact Hin]. left.
Qed.

Lemma length_heads (gs : list (list nat)) :
  (∀ g, g ∈ gs → g ≠ []) → length (omap head gs) = length gs.
Proof.
  induction gs as [|g gs IH]; intros Hne; simpl; [done|].
  destruct g as [|y g]; simpl.
  - destruct (Hne []); [left|done].
  - f_equal. apply IH. intros g' Hg'. apply Hne. by right.
Qed.

Lemma leaders_props (my_size : nat) J :
  1 ≤ J < Z.of_nat my_size →
  NoDup (leaders my_size J) ∧ length (leaders my_size J) = Z.to_nat J.
Proof.
  intros HJ. destruct (worker_groups_props my_size J HJ) as (Hl & Hc & _ & _ & Hne).
  unfold leaders. split.
  - apply NoDup_heads. rewrite Hc. apply NoDup_seq.
  - by rewrite length_heads.
Qed.

Lemma worker_start_ranks d (gs : list (list nat)) :
  w_rank <$> omap (worker_start d) gs = omap head gs.
Proof.
  induction gs as [|g gs IH]; simpl; [done|].
  unfold worker_start at 1. destruct (head g); simpl; [by f_equal | done].
Qed.

Lemma worker_start_shape d (gs : list (list nat)) w :
  w ∈ omap (worker_start d) gs →
  ∃ rank ids, w = Worker rank WRequest [] [] (start_trace d ids) ∧ head ids = Some rank.
Proof.
  intros (ids & Hin & Hw)%list_elem_of_omap. unfold worker_start in Hw.
  destruct (head ids) as [rank|] eqn:Hh; simpl in Hw; simplify_eq. eauto.
Qed.

Lemma start_ok d (my_size : nat) tks (njobs : Z) :
  let J := effective_njobs my_size njobs in
  1 ≤ J < Z.of_nat my_size →
  ∃ s0, start d true my_size tks njobs = inr s0
    ∧ system_ok d tks J (leaders my_size J) s0
    ∧ potential s0 = (5 * length tks + 4 * Z.to_nat J)%nat.
Proof.
  intros J HJ.
  destruct (setup_groups_ok my_size 0 njobs) as (i & grp & Hs & _); [done|lia|].
  fold J in Hs. unfold start. rewrite Hs. simpl.
  eexists. split; [done|].
  set (ws := omap (worker_start d) (worker_groups my_size J)).
  assert (∀ w, w ∈ ws → ∃ rank tr, w = Worker rank WRequest [] [] tr) as Hshape.
  { intros w (rank & ids & -> & _)%worker_start_shape. eauto. }
  assert (count_notified ws = 0%nat ∧ sum_list_with worker_cost ws = (4 * length ws)%nat)
    as [Hcnt Hcost].
  { unfold count_notified. induction ws as [|w ws IH]; simpl; [done|].
    destruct (Hshape w) as (rank & tr & ->); [left|].
    destruct IH as [-> ->]; [intros; apply Hshape; by right|].
    unfold worker_cost. simpl. split; lia. }
  split; [split; simpl|].
  - split; simpl.
    + apply counters_ok_init.
    + left. split; [done|lia].
    + intros i' v. by rewrite lookup_empty.
  - apply Forall_forall. intros w (rank & tr & ->)%Hshape.
    constructor. intros f i' _. simpl. by rewrite lookup_empty.
  - apply worker_start_ranks.
  - fold ws. by rewrite Hcnt.
  - intros f i' _ ?. lia.
  - unfold potential. simpl. fold ws. rewrite Hcost.
    assert (length ws = Z.to_nat J) as ->; [|lia].
    destruct (leaders_props my_size J HJ) as [_ <-].
    unfold leaders. rewrite <- (worker_start_ranks d). by rewrite length_fmap.
Qed.

(** ** No deadlock, and the results at the end *)

Lemma count_notified_lt ws k w :
  ws !! k = Some w → notified w = false → (count_notified ws < length ws)%nat.
Proof.
  intros Hk Hn. pose proof (count_notified_le ws) as Hle.
  destruct (decide (count_notified ws = length ws)) as [Heq|]; [|lia].
  apply count_notified_all in Heq.
  pose proof (Forall_lookup_1 _ _ _ _ Heq Hk) as Hw. simpl in Hw. congruence.
Qed.

Lemma system_ok_length d tks J ranks s :
  system_ok d tks J ranks s → length (workers s) = length ranks.
Proof. intros [_ _ <- _ _]. by rewrite length_fmap. Qed.

Lemma unnotified_can_move d tks J ranks s k w :
  Z.of_nat (length ranks) = J → system_ok d tks J ranks s →
  workers s !! k = Some w → notified w = false →
  ∃ a, is_Some (step d a s).
Proof.
  intros HJ Hok Hk Hn. pose proof (system_ok_length _ _ _ _ _ Hok) as Hlen.
  pose proof Hok as [Hroot Hws _ Hcnt _].
  assert (r_pc (root s) = RLoop) as Hpc.
  { pose proof (count_notified_lt _ _ _ Hk Hn).
    destruct Hroot as [_ [[? _]|[_ ?]] _]; [done|lia]. }
  pose proof (Forall_lookup_1 _ _ _ _ Hws Hk) as Hw.
  destruct Hw; simpl in Hn; try done.
  all: try (exists (AWorker k); unfold step; rewrite Hk; simpl; by eauto).
  all: exists (ARoot k); unfold step; rewrite Hpc, Hk; simpl; by eauto.
Qed.

Lemma terminal_finished d tks J ranks s :
  Z.of_nat (length ranks) = J → system_ok d tks J ranks s →
  terminal d s → finished s.
Proof.
  intros HJ Hok Hterm. pose proof (system_ok_length _ _ _ _ _ Hok) as Hlen.
  pose proof Hok as [Hroot Hws _ Hcnt _].
  assert (∀ k w, workers s !! k = Some w → notified w = true) as Hall.
  { intros k w Hk. destruct (notified w) eqn:Hn; [done|].
    destruct (unnotified_can_move d tks J ranks s k w) as [a [s' Hs']]; try done.
    by rewrite Hterm in Hs'. }
  assert (∃ ret, r_pc (root s) = RReturned ret) as [ret Hret].
  { assert (count_notified (workers s) = length (workers s)) as Hc.
    { apply count_notified_Forall, Forall_lookup. intros k w. apply Hall. }
    destruct Hroot as [_ [[_ ?]|[? _]] _]; [lia|eauto]. }
  split; [eauto|]. apply Forall_lookup. intros k w Hk.
  pose proof (Forall_lookup_1 _ _ _ _ Hws Hk) as Hw.
  pose proof (Hterm (AWorker k)) as Hno. unfold step in Hno. rewrite Hk in Hno.
  unfold root_vals in Hno. rewrite Hret in Hno.
  specialize (Hall k w Hk).
  destruct Hw; simpl in *; try done; [|by eauto].
  unfold worker_step in Hno. simpl in Hno. by destruct (broadcasts d).
Qed.

Lemma returned_results d tks J ranks s f :
  Z.of_nat (length ranks) = J → 1 ≤ J → system_ok d tks J ranks s →
  submitter d = Some f → r_pc (root s) ≠ RLoop →
  ∀ i, results (r_q (root s)) !! i =
         if bool_decide (0 ≤ i) then f <$> tks !! Z.to_nat i else None.
Proof.
  intros HJ H1 Hok Hf Hpc i. pose proof (system_ok_length _ _ _ _ _ Hok) as Hlen.
  destruct Hok as [[Hc Hro Hres] Hws Hranks Hcnt Hcov].
  destruct Hro as [[? _]|[_ Hn]]; [done|].
  destruct Hc as [_ _ Hcur Hrem Htot _ Hdr]. specialize (Hdr ltac:(lia)).
  assert (Forall (λ w, notified w = true) (workers s)) as Hall.
  { apply count_notified_all. lia. }
  destruct (results (r_q (root s)) !! i) as [v|] eqn:Hv.
  - destruct (Hres i v Hv) as (H0 & task & Ht & Hvf).
    rewrite bool_decide_eq_true_2 by done. rewrite Ht. simpl. f_equal. by apply Hvf.
  - case_bool_decide; [|done].
    destruct (tks !! Z.to_nat i) as [task|] eqn:Ht; [|done]. exfalso.
    apply lookup_lt_Some in Ht.
    destruct (Hcov f i Hf ltac:(lia)) as [[v' Hv']|(rank & Hr & Ha)]; [congruence|].
    rewrite <- Hranks in Hr. apply list_elem_of_fmap in Hr as (w & -> & Hw).
    pose proof (proj1 (Forall_forall _ _) Hws w Hw) as Hwok.
    pose proof (proj1 (Forall_forall _ _) Hall w Hw) as Hwn. simpl in Hwn.
    destruct Hwok as [| | | | |rank tr Hcl| |rank tr Hcl|rank tr Hcl ?]; simpl in *; try done.
    all: destruct (Hcl f i Hf Ha) as (task' & _ & _ & Hv'); congruence.
Qed.

Lemma size_results (m : gmap Z obj) (L : nat) :
  (∀ i, is_Some (m !! i) ↔ 0 ≤ i < Z.of_nat L) → size m = L.
Proof.
  intros Hm. rewrite <- size_dom.
  assert (dom m = list_to_set (seqZ 0 (Z.of_nat L))) as ->.
  { apply set_eq. intros i. rewrite elem_of_dom, Hm, elem_of_list_to_set, elem_of_seqZ. lia. }
  rewrite size_list_to_set by apply NoDup_seqZ. rewrite length_seqZ. lia.
Qed.

(** ** What the moves look like *)

Lemma deliver_view dest reply ws : view <$> deliver dest reply ws = view <$> ws.
Proof.
  unfold deliver. rewrite <- list_fmap_compose. apply list_fmap_ext.
  intros i w _. simpl. by case_decide.
Qed.

Lemma deliver_all_view sent ws : view <$> deliver_all sent ws = view <$> ws.
Proof.
  unfold deliver_all. revert ws. induction sent as [|[dest reply] sent IH]; intros ws; simpl.
  - done.
  - by rewrite IH, deliver_view.
Qed.

Lemma root_move_shape d s k s' :
  step d (ARoot k) s = Some s' →
  ∃ w m rest,
    workers s !! k = Some w ∧ w_up w = m :: rest ∧ r_pc (root s) = RLoop
    ∧ root s' = (root_recv d (w_rank w) m (root s)).1
    ∧ view <$> workers s' = view <$> workers s.
Proof.
  unfold step. intros Hstep.
  destruct (r_pc (root s)) eqn:Hpc; try done.
  destruct (workers s !! k) as [w|] eqn:Hk; try done.
  destruct (w_up w) as [|m rest] eqn:Hup; try done.
  injection Hstep as <-. exists w, m, rest. simpl.
  split; [done|]. split; [done|]. split; [done|]. split; [done|].
  rewrite deliver_all_view, list_fmap_insert.
  apply list_insert_id. by rewrite list_lookup_fmap, Hk.
Qed.

Lemma worker_move_shape d s k s' :
  step d (AWorker k) s = Some s' →
  ∃ w w',
    workers s !! k = Some w ∧ worker_step d (root_vals (root s)) w = Some w'
    ∧ root s' = root s ∧ workers s' = <[k := w']> (workers s).
Proof.
  unfold step. intros Hstep.
  destruct (workers s !! k) as [w|] eqn:Hk; [|done].
  destruct (worker_step d (root_vals (root s)) w) as [w'|] eqn:Hw'; [|done].
  injection Hstep as <-. by exists w, w'.
Qed.

(** An invariant of the workers that the coordinator cannot disturb. *)
Lemma Forall_view (P : nat * wpc * list event → Prop) ws ws' :
  view <$> ws' = view <$> ws →
  Forall (λ w, P (view w)) ws → Forall (λ w, P (view w)) ws'.
Proof.
  intros Hv H. apply Forall_lookup. intros i w' Hi.
  assert ((view <$> ws) !! i = Some (view w')) as Hl.
  { by rewrite <- Hv, list_lookup_fmap, Hi. }
  rewrite list_lookup_fmap in Hl. destruct (ws !! i) as [w|] eqn:Hw; simplify_eq.
  simpl in Hl. assert (view w = view w') as <- by congruence.
  by apply (Forall_lookup_1 _ _ _ _ H Hw).
Qed.

(** The coordinator of a run is the probe loop on the messages it took. *)
Lemma exec_probe_loop d sched s s' incoming p0 :
  root s = probe_loop d incoming p0 → exec d sched s = Some s' →
  ∃ incoming', root s' = probe_loop d incoming' p0.
Proof.
  revert s incoming. induction sched as [|a sched IH]; intros s incoming Hroot Hexec;
    simpl in Hexec.
  - simplify_eq. eauto.
  - destruct (step d a s) as [s1|] eqn:Hstep; [|done]. destruct a as [k|k].
    + apply root_move_shape in Hstep as (w & m & rest & _ & _ & Hpc & Hr & _).
      apply (IH s1 (incoming ++ [(w_rank w, m)])); [|done].
      rewrite probe_loop_snoc, <- Hroot, Hpc. done.
    + apply worker_move_shape in Hstep as (w & w' & _ & _ & Hr & _).
      apply (IH s1 incoming); [|done]. by rewrite Hr.
Qed.

(** ** The request / assign / submit cycle *)

Lemma phase_after_app tr evs :
  phase_after (tr ++ evs) = foldl (λ ph e, ph ≫= λ ph, advance ph e) (phase_after tr) evs.
Proof. unfold phase_after. by rewrite foldl_app. Qed.

Lemma phase_after_start d ids : phase_after (start_trace d ids) = Some PIdle.
Proof. by destruct d. Qed.

Lemma phase_finish d vals ph :
  foldl (λ ph e, ph ≫= λ ph, advance ph e) (Some ph) (finish d vals).1 = Some ph.
Proof. by destruct d as [|[]]. Qed.

Lemma worker_step_phase d f bcast w w' :
  submitter d = Some f → worker_step d bcast w = Some w' →
  phase_after (w_trace w) = Some (phase_of (w_pc w)) →
  phase_after (w_trace w') = Some (phase_of (w_pc w')).
Proof.
  intros Hf Hstep Hph. unfold worker_step in Hstep.
  destruct (w_pc w) eqn:Hpc; simpl in Hph.
  - injection Hstep as <-. simpl. by rewrite phase_after_app, Hph.
  - destruct (w_down w) as [|m rest]; [done|]. injection Hstep as <-.
    unfold get_next_recv. simpl.
    destruct (String.eqb (msg m) "no_more_tasks") eqn:Hm; simpl.
    + rewrite phase_after_app, Hph. simpl. by rewrite Hm.
    + destruct (value m); simpl; rewrite phase_after_app, Hph; simpl; by rewrite Hm.
  - injection Hstep as <-. unfold loop_body. rewrite Hf. simpl.
    by rewrite phase_after_app, Hph.
  - destruct (broadcasts d).
    + destruct bcast; [|done]. injection Hstep as <-. simpl.
      by rewrite phase_after_app, Hph, phase_finish.
    + injection Hstep as <-. simpl.
      by rewrite phase_after_app, Hph, phase_finish.
  - done.
  - done.
Qed.

Lemma start_workers d (parallel_capable : bool) (my_size : nat) tks njobs s0 w :
  start d parallel_capable my_size tks njobs = inr s0 → w ∈ workers s0 →
  ∃ rank ids, w = Worker rank WRequest [] [] (start_trace d ids) ∧ head ids = Some rank.
Proof.
  unfold start. destruct (setup_groups _ _ _ _) as [e|g]; [done|].
  intros [= <-]. simpl. apply worker_start_shape.
Qed.

Lemma start_root d (parallel_capable : bool) (my_size : nat) tks njobs s0 :
  start d parallel_capable my_size tks njobs = inr s0 →
  ∃ g, root s0 = root_start d tks g.
Proof.
  unfold start. destruct (setup_groups _ _ _ _) as [e|g]; [done|].
  intros [= <-]. simpl. eauto.
Qed.

(** C5, as the code has it: when the workers send results ([task_queue],
    and [dynamic_parallel_objects] with a storage), the trace of every
    subgroup leader goes round the cycle request, assignment, result: a new
    assignment is never received before the result of the previous one has
    been sent. *)
Theorem cycle_alternates d f (parallel_capable : bool) (my_size : nat) tks njobs sched s0 s w :
  submitter d = Some f →
  start d parallel_capable my_size tks njobs = inr s0 →
  exec d sched s0 = Some s →
  w ∈ workers s →
  phase_after (w_trace w) = Some (phase_of (w_pc w)) ∧ alternating (w_trace w) = true.
Proof.
  intros Hf Hstart Hexec Hw.
  assert (Forall (λ w, phase_after (view w).2 = Some (phase_of (view w).1.2)) (workers s))
    as Hall.
  { assert (Forall (λ w, phase_after (view w).2 = Some (phase_of (view w).1.2)) (workers s0))
      as H0.
    { apply Forall_forall. intros w0 Hw0.
      destruct (start_workers _ _ _ _ _ _ _ Hstart Hw0) as (rank & ids & -> & _).
      simpl. apply phase_after_start. }
    clear Hstart Hw. revert s0 H0 Hexec.
    induction sched as [|a sched IH]; intros s0 H0 Hexec; simpl in Hexec.
    - by simplify_eq.
    - destruct (step d a s0) as [s1|] eqn:Hstep; [|done].
      apply (IH s1); [|done]. destruct a as [k|k].
      + apply root_move_shape in Hstep as (_ & _ & _ & _ & _ & _ & _ & Hv).
        by eapply (Forall_view (λ v, phase_after v.2 = Some (phase_of v.1.2))).
      + apply worker_move_shape in Hstep as (w0 & w0' & Hk & Hws & _ & ->).
        apply Forall_insert; [done|]. simpl.
        eapply worker_step_phase; [done..|].
        by apply (Forall_lookup_1 _ _ _ _ H0 Hk). }
  pose proof (proj1 (Forall_forall _ _) Hall w Hw) as Hph. simpl in Hph.
  split; [done|]. unfold alternating. rewrite Hph. by apply bool_decide_eq_true_2.
Qed.

(** ** The pushed group *)

Lemma in_group_app tr evs :
  in_group tr = true → no_group_event evs = true → in_group (tr ++ evs) = true.
Proof.
  destruct tr as [|[] body]; simpl; try done. intros Hb He.
  unfold no_group_event in *. rewrite forallb_app, Hb, He. done.
Qed.

Lemma pop_last_snoc (body : list (@event obj)) :
  no_group_event body = true → pop_last (body ++ [EvPop]) = true.
Proof.
  induction body as [|e body IH]; simpl; [done|].
  intros [He Hb]%andb_true_iff. rewrite He. simpl.
  destruct (body ++ [EvPop]) eqn:Happ.
  - by destruct body.
  - by apply IH.
Qed.

Lemma group_released_app tr evs :
  in_group tr = true → no_group_event evs = true →
  group_released (tr ++ evs ++ [EvPop]) = true.
Proof.
  destruct tr as [|[] body]; simpl; try done. intros Hb He.
  rewrite app_assoc. apply pop_last_snoc.
  unfold no_group_event in *. by rewrite forallb_app, Hb, He.
Qed.

Lemma sent_events_no_group (sent : list (nat * @message obj)) :
  no_group_event (sent_events sent) = true.
Proof. induction sent as [|[] sent IH]; simpl; [done|]. exact IH. Qed.

Lemma root_recv_group storage body source m p :
  let d := dynamic_parallel_objects storage body in
  r_pc p = RLoop → in_group (r_trace p) = true →
  root_group_ok (root_recv d source m p).1 = true.
Proof.
  intros d Hpc Hin. unfold root_group_ok, root_recv.
  set (h := handle_assignment source m (r_q p)).
  assert (no_group_event (EvRecv source 1 m :: sent_events (h_sent h)) = true) as Hev.
  { simpl. apply sent_events_no_group. }
  destruct (h_exc h) as [[]|]; simpl; try (by apply in_group_app).
  destruct storage; simpl.
  - apply (group_released_app _ [EvBcast _]); [|done]. by apply in_group_app.
  - apply (group_released_app _ []); [|done]. by apply in_group_app.
Qed.

Lemma probe_loop_group storage body tks g incoming :
  let d := dynamic_parallel_objects storage body in
  root_group_ok (probe_loop d incoming (root_start d tks g)) = true.
Proof.
  intros d. induction incoming as [|[source m] incoming IH] using rev_ind; [done|].
  rewrite probe_loop_snoc.
  destruct (r_pc (probe_loop d incoming (root_start d tks g))) eqn:Hpc; try done.
  apply root_recv_group; [done|]. unfold root_group_ok in IH. by rewrite Hpc in IH.
Qed.

Lemma worker_step_group storage body bcast w w' :
  let d := dynamic_parallel_objects storage body in
  worker_step d bcast w = Some w' →
  worker_group_ok (view w) = true → worker_group_ok (view w') = true.
Proof.
  intros d. unfold worker_step, worker_group_ok. simpl.
  destruct (w_pc w) eqn:Hpc; intros Hstep Hin; try done.
  - injection Hstep as <-. simpl. by apply in_group_app.
  - destruct (w_down w) as [|m rest]; [done|]. injection Hstep as <-.
    unfold get_next_recv. simpl.
    destruct (String.eqb (msg m) "no_more_tasks"); [|destruct (value m)]; simpl;
      by apply in_group_app.
  - injection Hstep as <-. unfold loop_body.
    destruct (submitter d); simpl; [by apply in_group_app | done].
  - destruct storage; simpl in Hstep.
    + destruct bcast; [|done]. injection Hstep as <-. simpl.
      by apply (group_released_app _ [EvBcast _]).
    + injection Hstep as <-. simpl. by apply (group_released_app _ []).
Qed.

(** C6, as the code has it, for [dynamic_parallel_objects]: every process
    pushes its group first and pops it last.  While the process is in the
    run the group is there, and when it has returned the pop is its final
    event; a coordinator whose loop was aborted by an exception still has
    the group pushed.  (For the coordinator the messages may be any
    messages.) *)
Theorem group_popped_after_run storage body (parallel_capable : bool) (my_size : nat)
    tks njobs sched s0 s :
  let d := dynamic_parallel_objects storage body in
  start d parallel_capable my_size tks njobs = inr s0 →
  exec d sched s0 = Some s →
  (∀ g incoming, root_group_ok (probe_loop d incoming (root_start d tks g)) = true)
  ∧ root_group_ok (root s) = true
  ∧ (∀ w, w ∈ workers s → worker_group_ok (view w) = true).
Proof.
  intros d Hstart Hexec. split; [|split].
  - intros g incoming. apply probe_loop_group.
  - destruct (start_root _ _ _ _ _ _ Hstart) as [g Hg].
    destruct (exec_probe_loop d sched s0 s [] (root_start d tks g)) as [incoming ->];
      [done..|].
    apply probe_loop_group.
  - apply Forall_forall.
    assert (Forall (λ w, worker_group_ok (view w) = true) (workers s0)) as H0.
    { apply Forall_forall. intros w0 Hw0.
      by destruct (start_workers _ _ _ _ _ _ _ Hstart Hw0) as (rank & ids & -> & _). }
    clear Hstart. revert s0 H0 Hexec.
    induction sched as [|a sched IH]; intros s0 H0 Hexec; simpl in Hexec.
    + by simplify_eq.
    + destruct (step d a s0) as [s1|] eqn:Hstep; [|done].
      apply (IH s1); [|done]. destruct a as [k|k].
      * apply root_move_shape in Hstep as (_ & _ & _ & _ & _ & _ & _ & Hv).
        by eapply (Forall_view (λ v, worker_group_ok v = true)).
      * apply worker_move_shape in Hstep as (w0 & w0' & Hk & Hws & _ & ->).
        apply Forall_insert; [done|].
        eapply worker_step_group; [done|].
        by apply (Forall_lookup_1 _ _ _ _ H0 Hk).
Qed.

(** ** Who has been told to end *)

Lemma root_recv_sent d source m p :
  (root_recv d source m p).2 = h_sent (handle_assignment source m (r_q p)).
Proof. unfold root_recv. by destruct (h_exc _) as [[]|]. Qed.

Lemma root_recv_trace d source m p :
  ∃ fin, r_trace (root_recv d source m p).1
         = r_trace p ++ EvRecv source 1 m
             :: sent_events (h_sent (handle_assignment source m (r_q p))) ++ fin
         ∧ ∀ dest tag reply, EvSend dest tag reply ∉ fin.
Proof.
  unfold root_recv. destruct (h_exc _) as [[]|]; simpl;
    try (exists []; rewrite app_nil_r; split; [done|]; intros ??? []%elem_of_nil).
  eexists. rewrite <- app_assoc. split; [done|]. intros. apply finish_no_send.
Qed.

Lemma root_move_workers d tks J ranks s k s' :
  NoDup ranks → system_ok d tks J ranks s → step d (ARoot k) s = Some s' →
  ∃ w m rest,
    workers s !! k = Some w ∧ w_up w = m :: rest
    ∧ root s' = (root_recv d (w_rank w) m (root s)).1
    ∧ workers s' =
        <[k := Worker (w_rank w) (w_pc w) rest
                 (w_down w ++ (h_sent (handle_assignment (w_rank w) m (r_q (root s)))).*2)
                 (w_trace w)]> (workers s).
Proof.
  intros Hnd [_ _ Hranks _ _] Hstep. subst ranks. unfold step in Hstep.
  destruct (r_pc (root s)) eqn:Hpc; try done.
  destruct (workers s !! k) as [w|] eqn:Hk; try done.
  destruct (w_up w) as [|m rest] eqn:Hup; try done.
  injection Hstep as <-. exists w, m, rest. simpl.
  split; [done|]. split; [done|]. split; [done|].
  rewrite root_recv_sent.
  destruct (handle_assignment_spec (w_rank w) m (r_q (root s))); simpl;
    rewrite ?app_nil_r; try done.
  all: unfold deliver_all; simpl;
    by rewrite (deliver_insert (workers s) k w (pop_up rest w)).
Qed.

Lemma told_to_end_sent d tks J ranks sched s0 s :
  NoDup ranks → system_ok d tks J ranks s0 →
  (∀ w, w ∈ workers s0 →
     notified w = true ↔ EvSend (w_rank w) 2 messages_end ∈ r_trace (root s0)) →
  exec d sched s0 = Some s →
  ∀ w, w ∈ workers s →
       notified w = true ↔ EvSend (w_rank w) 2 messages_end ∈ r_trace (root s).
Proof.
  intros Hnd Hok0 H0 Hexec.
  revert s0 Hok0 H0 Hexec.
  induction sched as [|a sched IH]; intros s0 Hok0 H0 Hexec; simpl in Hexec.
  { by simplify_eq. }
  destruct (step d a s0) as [s1|] eqn:Hstep; [|done].
  destruct (step_ok d tks J ranks s0 a s1 Hnd Hok0 Hstep) as [Hok1 _].
  apply (IH s1 Hok1); [|done]. clear IH Hexec.
  intros w' Hw'. destruct a as [k|k].
  - destruct (root_move_workers d tks J ranks s0 k s1 Hnd Hok0 Hstep)
      as (w & m & rest & Hk & Hup & Hroot & Hws).
    rewrite Hroot. destruct (root_recv_trace d (w_rank w) m (root s0)) as (fin & -> & Hfin).
    rewrite Hws in Hw'. apply list_elem_of_lookup in Hw' as [j Hj].
    pose proof Hok0 as [_ Hwsok Hranks _ _]. subst ranks.
    rewrite elem_of_app, elem_of_cons, elem_of_app.
    destruct (decide (j = k)) as [->|Hne].
    + rewrite list_lookup_insert_eq in Hj by (by eapply lookup_lt_Some).
      injection Hj as <-. simpl.
      pose proof (H0 w ltac:(by eapply list_elem_of_lookup_2)) as H0w.
      pose proof (Forall_lookup_1 _ _ _ _ Hwsok Hk) as Hwok.
      unfold notified in *. simpl.
      destruct Hwok; simpl in *; simplify_eq.
      all: match goal with
           | |- context [handle_assignment ?r ?m0 ?q0] =>
               destruct (handle_assignment_spec r m0 q0); simpl in *; try done
           end.
      all: split; [try done; intros _; by eauto using list_elem_of_here|].
      all: intros [Hin|[?|[Hin|Hin]]]; try done;
        try (by apply H0w in Hin); try (by apply elem_of_nil in Hin);
        try (by apply Hfin in Hin).
      all: apply list_elem_of_singleton in Hin; by simplify_eq.
    + rewrite list_lookup_insert_ne in Hj by done.
      pose proof (H0 w' ltac:(by eapply list_elem_of_lookup_2)) as H0w.
      rewrite H0w. split; [by left|].
      intros [Hin|[?|[Hin|Hin]]]; try done; [|by apply Hfin in Hin].
      exfalso. unfold sent_events in Hin.
      apply list_elem_of_fmap in Hin as ([dest reply] & Heq & Hin). simpl in Heq.
      injection Heq as <- <-.
      apply (handles_sent_dest _ _ _ _ _ _ (handle_assignment_spec _ _ _)) in Hin.
      by apply (rank_lookup_ne (workers s0) j k w' w Hnd Hj Hk Hne).
  - apply worker_move_shape in Hstep as (w & w0 & Hk & Hws & Hroot & Hws').
    rewrite Hroot. rewrite Hws' in Hw'. apply list_elem_of_lookup in Hw' as [j Hj].
    destruct (decide (j = k)) as [->|Hne].
    + rewrite list_lookup_insert_eq in Hj by (by eapply lookup_lt_Some).
      injection Hj as <-.
      destruct Hok0 as [_ Hwsok _ _ _].
      destruct (worker_step_ok d tks (root s0) w w0) as (_ & Hr & Hn & _);
        [by eapply Forall_lookup_1|done|].
      rewrite Hr, Hn. apply H0. by eapply list_elem_of_lookup_2.
    + rewrite list_lookup_insert_ne in Hj by done.
      apply H0. by eapply list_elem_of_lookup_2.
Qed.

(** C3: the probe loop of the coordinator goes on exactly as long as the
    notified count is below the number of worker subgroups.  One call of
    [handle_assignment] raises [StopIteration] only with the count at
    [njobs] or above, and returns normally only with the count below it;
    in a run the loop has been left if and only if the count equals the
    number of subgroups, which is the case if and only if the terminate
    message has been sent to the leader of every subgroup. *)
Theorem loop_ends_when_all_notified d (my_size : nat) tks (njobs0 : Z) sched s0 s :
  let J := effective_njobs my_size njobs0 in
  1 ≤ J < Z.of_nat my_size →
  start d true my_size tks njobs0 = inr s0 →
  exec d sched s0 = Some s →
  (∀ source m self,
     let h := handle_assignment source m self in
     (h_exc h = Some StopIteration → njobs (h_self h) ≤ _notified (h_self h))
     ∧ (h_exc h = None → _notified (h_self h) < njobs (h_self h)))
  ∧ njobs (r_q (root s)) = J
  ∧ Z.of_nat (length (workers s)) = J
  ∧ (r_pc (root s) = RLoop ↔ _notified (r_q (root s)) < J)
  ∧ ((∃ ret, r_pc (root s) = RReturned ret) ↔ _notified (r_q (root s)) = J)
  ∧ (_notified (r_q (root s)) = J ↔
       ∀ w, w ∈ workers s → EvSend (w_rank w) 2 messages_end ∈ r_trace (root s)).
Proof.
  intros J HJ Hstart Hexec.
  destruct (start_ok d my_size tks njobs0 HJ) as (s0' & Hs0 & Hok0 & Hpot).
  rewrite Hstart in Hs0. injection Hs0 as <-.
  destruct (leaders_props my_size J HJ) as [Hnd Hlen].
  destruct (exec_ok d tks J _ sched s0 s Hnd Hok0 Hexec) as [Hok _].
  pose proof (system_ok_length _ _ _ _ _ Hok) as Hlen'.
  assert (∀ w, w ∈ workers s →
            notified w = true ↔ EvSend (w_rank w) 2 messages_end ∈ r_trace (root s))
    as Htold.
  { eapply told_to_end_sent; [exact Hnd|exact Hok0| |exact Hexec].
    intros w Hw.
    destruct (start_workers _ _ _ _ _ _ _ Hstart Hw) as (rank & ids & -> & _).
    destruct (start_root _ _ _ _ _ _ Hstart) as [g ->]. simpl.
    split; [done|]. by intros ?%start_no_send. }
  destruct Hok as [[Hc Hpc _] _ _ Hcnt _]. destruct Hc as [_ Hnj _ _ _ _ _].
  split; [|split; [done|]; split; [lia|]; split; [|split]].
  - intros source m self. simpl.
    apply (handles_stop source m self), handle_assignment_spec.
  - destruct Hpc as [[-> ?]|[-> ?]]; split; try done; lia.
  - destruct Hpc as [[-> ?]|[-> ?]]; split; try done; try lia; eauto.
    by intros [? ?].
  - split.
    + intros Hn w Hw. apply Htold; [done|].
      assert (Forall (λ w, notified w = true) (workers s)) as Hall.
      { apply count_notified_all. lia. }
      by apply (proj1 (Forall_forall _ _) Hall).
    + intros Hall.
      assert (count_notified (workers s) = length (workers s)) as Hc'; [|lia].
      apply count_notified_Forall, Forall_forall. intros w Hw.
      apply Htold; [done|]. by apply Hall.
Qed.

(** ** An empty task list *)

Lemma no_results_without_tasks d J p :
  root_ok d [] J p → results (r_q p) = ∅.
Proof.
  intros [_ _ Hres]. apply map_empty. intros i.
  destruct (results (r_q p) !! i) as [v|] eqn:Hv; [|done].
  destruct (Hres i v Hv) as (_ & task & Ht & _). by rewrite lookup_nil in Ht.
Qed.

Lemma worker_step_first_request d J p w w' :
  root_ok d [] J p → worker_ok d [] p w →
  worker_step d (root_vals p) w = Some w' →
  first_request_ends d (view w) → first_request_ends d (view w').
Proof.
  intros Hroot Hok Hstep [ids Hv]. exists ids. revert Hstep Hv.
  pose proof (no_results_without_tasks d J p Hroot) as Hres.
  destruct Hok as [| rank tr f task ? Hp | | rank tr f task ? Hp | rank tr task Hp
                   | | rank tr task Hp | |];
    try (destruct Hp as (i & _ & _ & Ht); by rewrite lookup_nil in Ht);
    unfold worker_step; simpl; intros Hstep Hv; simplify_eq; simpl; try done.
  - by rewrite <- app_assoc.
  - destruct (broadcasts d) eqn:Hb.
    + destruct (root_vals p) as [vals|] eqn:Hvals; [|done]. simplify_eq.
      apply root_vals_Some in Hvals as [-> _]. rewrite Hres. simpl.
      by rewrite <- app_assoc.
    + simplify_eq. simpl. by rewrite <- app_assoc.
Qed.

(** ** Every run can be brought to its end *)

Lemma step_in_moves d s a s' :
  step d a s = Some s' → a ∈ moves (length (workers s)).
Proof.
  intros Hstep. unfold moves. apply list_elem_of_In, in_flat_map.
  assert (∃ k w, workers s !! k = Some w ∧ (a = ARoot k ∨ a = AWorker k))
    as (k & w & Hk & Ha).
  { destruct a as [k|k].
    - apply root_move_shape in Hstep as (w & _ & _ & Hk & _). eauto.
    - apply worker_move_shape in Hstep as (w & _ & Hk & _). eauto. }
  exists k. split.
  - apply in_seq. apply lookup_lt_Some in Hk. lia.
  - destruct Ha as [-> | ->]; simpl; auto.
Qed.

Lemma run_to_end d tks J ranks s :
  NoDup ranks → Z.of_nat (length ranks) = J → system_ok d tks J ranks s →
  ∃ sched s', exec d sched s = Some s' ∧ finished s'.
Proof.
  intros Hnd HJ. remember (potential s) as n eqn:Hn.
  revert s Hn. induction n as [n IH] using lt_wf_ind. intros s Hn Hok.
  destruct (decide (Exists (λ a, is_Some (step d a s)) (moves (length (workers s)))))
    as [Hex|Hno].
  - apply Exists_exists in Hex as (a & _ & [s1 Hstep]).
    destruct (step_ok d tks J ranks s a s1 Hnd Hok Hstep) as [Hok1 Hlt].
    destruct (IH (potential s1) ltac:(lia) s1 eq_refl Hok1) as (sched & s' & Hexec & Hfin).
    exists (a :: sched), s'. simpl. by rewrite Hstep.
  - exists [], s. split; [done|].
    apply (terminal_finished d tks J ranks); [done..|].
    intros a. destruct (step d a s) as [s1|] eqn:Hstep; [|done].
    destruct Hno. apply Exists_exists. exists a.
    split; [by eapply step_in_moves | by rewrite Hstep].
Qed.

(** ** The two whole-run theorems *)

(** C1: [task_queue] on [my_size] processes with a valid job count and a
    pure [func].  The run starts, and it can be brought to the point where
    every process has returned.  Whatever the order in which the processes
    move: the run is over after at most [5 * len(tasks) + 4 * njobs] moves;
    it cannot get stuck before every process has returned, and nothing
    fails; once the coordinator is out of its loop the result mapping has
    exactly one entry for every task id in [0, len(tasks)), the entry of id
    [i] being [func(tasks[i])], and that mapping is what every process
    returns. *)
Theorem task_queue_results (func : obj → obj) (my_size : nat) tks (njobs : Z) :
  let J := effective_njobs my_size njobs in
  let d := task_queue func in
  1 ≤ J < Z.of_nat my_size →
  ∃ s0,
    start d true my_size tks njobs = inr s0
    ∧ (∃ sched s, exec d sched s0 = Some s ∧ finished s)
    ∧ ∀ sched s, exec d sched s0 = Some s →
        (length sched ≤ 5 * length tks + 4 * Z.to_nat J)%nat
        ∧ (terminal d s → finished s)
        ∧ (∀ e, r_pc (root s) ≠ RFailed e)
        ∧ (∀ ret, r_pc (root s) = RReturned ret →
             ret = Some (results (r_q (root s)))
             ∧ (∀ i : nat, results (r_q (root s)) !! Z.of_nat i = func <$> tks !! i)
             ∧ (∀ i : Z, is_Some (results (r_q (root s)) !! i)
                         ↔ 0 ≤ i < Z.of_nat (length tks))
             ∧ size (results (r_q (root s))) = length tks)
        ∧ (∀ k w ret, workers s !! k = Some w → w_pc w = WReturned ret →
             ret = Some (results (r_q (root s))) ∧ r_pc (root s) = RReturned ret).
Proof.
  intros J d HJ.
  destruct (start_ok d my_size tks njobs HJ) as (s0 & Hs0 & Hok0 & Hpot).
  destruct (leaders_props my_size J HJ) as [Hnd Hlen].
  assert (Z.of_nat (length (leaders my_size J)) = J) as HlenJ by lia.
  exists s0. split; [done|]. split; [by eapply run_to_end|].
  intros sched s Hexec.
  destruct (exec_ok d tks J _ sched s0 s Hnd Hok0 Hexec) as [Hok Hle].
  pose proof (returned_results d tks J _ s func HlenJ ltac:(lia) Hok eq_refl) as Hres.
  assert (∀ ret, r_pc (root s) = RReturned ret → ret = Some (results (r_q (root s))))
    as Hret.
  { intros ret Hpc. destruct Hok as [[_ [[? _]|[Hpc' _]] _] _ _ _ _]; [congruence|].
    unfold d in Hpc'. simpl in Hpc'. congruence. }
  split; [lia|]. split; [by eapply terminal_finished|]. split; [|split].
  - intros e He. destruct Hok as [[_ [[? _]|[? _]] _] _ _ _ _]; congruence.
  - intros ret Hpc. split; [by apply Hret|].
    assert (r_pc (root s) ≠ RLoop) as Hne by congruence.
    assert (∀ i : Z, is_Some (results (r_q (root s)) !! i) ↔ 0 ≤ i < Z.of_nat (length tks))
      as Hdom.
    { intros i. rewrite (Hres Hne i). case_bool_decide.
      - rewrite fmap_is_Some, lookup_lt_is_Some. lia.
      - split; [by intros [? ?]|lia]. }
    split; [|split; [done|by apply size_results]].
    intros i. rewrite (Hres Hne). rewrite bool_decide_eq_true_2 by lia.
    by rewrite Nat2Z.id.
  - intros k w ret Hk Hw.
    destruct Hok as [[_ Hpc _] Hws _ _ _].
    pose proof (Forall_lookup_1 _ _ _ _ Hws Hk) as Hwok.
    destruct Hwok as [| | | | | | | |rank tr Hcl Hb]; simpl in Hw; simplify_eq.
    split; [done|]. destruct Hpc as [[Hl _]|[? _]]; [|done].
    by destruct Hb.
Qed.

(** C9: with an empty task list and a valid job count the run starts and
    can be brought to the point where every process has returned.  Whatever
    the order of the moves: the result mapping stays empty and is what the
    processes get back, the coordinator never sends a task, and every
    leader goes through one request only, which is answered with the
    terminate message and ends its iteration at once; the run cannot get
    stuck before all processes have returned. *)
Theorem empty_task_list d (my_size : nat) (njobs0 : Z) :
  let J := effective_njobs my_size njobs0 in
  1 ≤ J < Z.of_nat my_size →
  ∃ s0,
    start d true my_size [] njobs0 = inr s0
    ∧ (∃ sched s, exec d sched s0 = Some s ∧ finished s)
    ∧ ∀ sched s, exec d sched s0 = Some s →
        results (r_q (root s)) = ∅
        ∧ delivered (r_trace (root s)) = []
        ∧ (terminal d s → finished s)
        ∧ (∀ ret, r_pc (root s) = RReturned ret → ret = (finish d ∅).2)
        ∧ (∀ w, w ∈ workers s → first_request_ends d (view w)).
Proof.
  intros J HJ.
  destruct (start_ok d my_size [] njobs0 HJ) as (s0 & Hstart & Hok0 & Hpot).
  destruct (leaders_props my_size J HJ) as [Hnd Hlen].
  exists s0. split; [done|].
  split; [eapply run_to_end; [exact Hnd| |exact Hok0]; lia|].
  intros sched s Hexec.
  destruct (exec_ok d [] J _ sched s0 s Hnd Hok0 Hexec) as [Hok _].
  pose proof (no_results_without_tasks d J (root s) (so_root _ _ _ _ _ Hok)) as Hres.
  split; [done|]. split; [|split; [|split]].
  - destruct (start_root _ _ _ _ _ _ Hstart) as [g Hg].
    destruct (exec_probe_loop d sched s0 s [] (root_start d [] g)) as [incoming ->];
      [done..|].
    rewrite (al_delivered _ _ _ _ (probe_loop_alone_ok d [] g incoming)).
    by rewrite take_nil.
  - apply (terminal_finished d [] J (leaders my_size J)); [lia|done].
  - intros ret Hpc. destruct Hok as [[_ [[? _]|[Hpc' _]] _] _ _ _ _]; [congruence|].
    rewrite Hres in Hpc'. congruence.
  - apply Forall_forall.
    assert (Forall (λ w, first_request_ends d (view w)) (workers s0)) as H0.
    { apply Forall_forall. intros w0 Hw0.
      destruct (start_workers _ _ _ _ _ _ _ Hstart Hw0) as (rank & ids & -> & _).
      by exists ids. }
    clear Hstart Hres Hok Hpot. revert s0 Hok0 H0 Hexec.
    induction sched as [|a sched IH]; intros s0 Hok0 H0 Hexec; simpl in Hexec.
    + by simplify_eq.
    + destruct (step d a s0) as [s1|] eqn:Hstep; [|done].
      destruct (step_ok d [] J _ s0 a s1 Hnd Hok0 Hstep) as [Hok1 _].
      apply (IH s1 Hok1); [|done]. destruct a as [k|k].
      * apply root_move_shape in Hstep as (_ & _ & _ & _ & _ & _ & _ & Hv).
        by eapply (Forall_view (first_request_ends d)).
      * apply worker_move_shape in Hstep as (w0 & w0' & Hk & Hws & _ & ->).
        apply Forall_insert; [done|].
        destruct Hok0 as [Hroot Hwsok _ _ _].
        eapply worker_step_first_request; [done| |done|].
        -- by apply (Forall_lookup_1 _ _ _ _ Hwsok Hk).
        -- by apply (Forall_lookup_1 _ _ _ _ H0 Hk).
Qed.

(** ** The start state is what the drivers' bodies build

    [start] takes the leaders off the list of groups; this is what each of
    these processes gets when it runs the body of the driver with its own
    rank. *)
Lemma start_is_enter d (my_size : nat) tks (njobs0 : Z) s0 :
  let J := effective_njobs my_size njobs0 in
  1 ≤ J < Z.of_nat my_size →
  start d true my_size tks njobs0 = inr s0 →
  (∃ g, enter d true my_size 0 njobs0 = inr (g, r_trace (root s0))
        ∧ root s0 = RootProc (TaskQueueRoot_init tks (g_njobs g)) RLoop (r_trace (root s0)))
  ∧ ∀ w, w ∈ workers s0 →
      ∃ g, enter d true my_size (w_rank w) njobs0 = inr (g, w_trace w)
           ∧ w = Worker (w_rank w) WRequest [] [] (w_trace w).
Proof.
  intros J HJ Hstart.
  destruct (worker_groups_props my_size J HJ) as (_ & Hc & _ & _ & _).
  split.
  - destruct (setup_groups_ok my_size 0 njobs0) as (i & grp & Hs & Hi & Hr & Hu);
      [done|lia|]. fold J in Hs, Hi, Hu.
    assert (0%nat = i) as <- by (apply (Hu 0%nat [0%nat]); [done|left]).
    unfold start in Hstart. rewrite Hs in Hstart. injection Hstart as <-.
    eexists. unfold enter. rewrite Hs. simpl. done.
  - intros w Hw.
    assert (∃ ids, ids ∈ worker_groups my_size J ∧ head ids = Some (w_rank w)
                   ∧ w = Worker (w_rank w) WRequest [] [] (start_trace d ids))
      as (ids & Hids & Hhead & Hweq).
    { unfold start in Hstart.
      destruct (setup_groups_ok my_size 0 njobs0) as (i & grp & Hs & _); [done|lia|].
      rewrite Hs in Hstart. injection Hstart as <-. simpl in Hw.
      apply list_elem_of_omap in Hw as (ids & Hin & Hw). unfold worker_start in Hw.
      destruct (head ids) as [rank|] eqn:Hh; simpl in Hw; simplify_eq.
      exists ids. done. }
    assert (w_rank w ∈ ids) as Hrin.
    { destruct ids as [|x ids]; simpl in Hhead; simplify_eq. left. }
    assert (w_rank w < my_size)%nat as Hlt.
    { assert (w_rank w ∈ concat (worker_groups my_size J)) as Hin.
      { apply elem_of_concat. eauto. }
      rewrite Hc in Hin. apply elem_of_seq in Hin. lia. }
    destruct (setup_groups_ok my_size (w_rank w) njobs0) as (i & grp & Hs & Hi & Hr & Hu);
      [done|done|]. fold J in Hs, Hi, Hu.
    apply list_elem_of_lookup in Hids as [j Hj].
    assert (S j = i) as <- by (by apply (Hu (S j) ids)).
    simpl in Hi. rewrite Hj in Hi. injection Hi as <-.
    assert (w_trace w = start_trace d ids) as Htr by (by rewrite Hweq).
    eexists. unfold enter. rewrite Hs. simpl. rewrite Hj. simpl.
    rewrite Htr. done.
Qed.

(** * Further properties of the coordinator *)

Lemma handles_tables_bounded tks J source m self h :
  handles source m self h → counters_ok tks J self →
  tables_bounded self → tables_bounded (h_self h).
Proof.
  intros Hh Hc [Ha Hr]. pose proof Hc as [_ _ Hcur _ _ _ _].
  destruct Hh; simpl; try done; split; simpl.
  - done.
  - intros j. destruct (decide (i = j)) as [<-|].
    + intros _. by eapply Ha.
    + rewrite lookup_insert_ne by done. apply Hr.
  - intros rank i. destruct (decide (source = rank)) as [<-|].
    + rewrite lookup_insert_eq. intros [= <-]. lia.
    + rewrite lookup_insert_ne by done. intros Hi. specialize (Ha _ _ Hi). lia.
  - intros i Hi. specialize (Hr _ Hi). lia.
Qed.

Lemma root_recv_q d source m p :
  r_q (root_recv d source m p).1 = h_self (handle_assignment source m (r_q p)).
Proof. unfold root_recv. by destruct (h_exc _) as [[]|]. Qed.

Lemma probe_loop_tables_bounded d tks g incoming :
  tables_bounded (r_q (probe_loop d incoming (root_start d tks g))).
Proof.
  induction incoming as [|[source m] incoming IH] using rev_ind.
  - split; intros ?; [intros ?|]; unfold probe_loop, root_start; simpl;
      rewrite lookup_empty; [done|by intros []].
  - rewrite probe_loop_snoc.
    destruct (r_pc (probe_loop d incoming (root_start d tks g))) eqn:Hpc; try done.
    rewrite root_recv_q. eapply handles_tables_bounded; [apply handle_assignment_spec| |done].
    apply (al_counters _ _ _ _ (probe_loop_alone_ok d tks g incoming)).
Qed.

(** Whatever messages arrive, in whatever order, the coordinator keeps its
    books: [_current + _remaining] stays [len(tasks)], no counter goes
    negative, a terminate message is only counted once no task remains, and
    the assignment table and the result mapping only hold task ids below
    [_current], that is, ids that have been handed out. *)
Theorem coordinator_books d tks g incoming :
  let q := r_q (probe_loop d incoming (root_start d tks g)) in
  tasks q = tks ∧ njobs q = g_njobs g
  ∧ 0 ≤ _current q ∧ 0 ≤ _remaining q ∧ 0 ≤ _notified q
  ∧ _current q + _remaining q = Z.of_nat (length tks)
  ∧ (0 < _notified q → _remaining q = 0)
  ∧ (∀ rank i, assignments q !! rank = Some i → 0 ≤ i < _current q)
  ∧ (∀ i, is_Some (results q !! i) → 0 ≤ i < _current q).
Proof.
  intros q.
  destruct (al_counters _ _ _ _ (probe_loop_alone_ok d tks g incoming)).
  destruct (probe_loop_tables_bounded d tks g incoming) as [Ha Hr].
  repeat split; try done; first [by eapply Ha | by eapply Hr].
Qed.

(** Whatever messages arrive, [self.tasks[task_id]] on line 113 is never
    out of range: the loop never ends with an [IndexError]. *)
Theorem no_index_error d tks g incoming :
  r_pc (probe_loop d incoming (root_start d tks g)) ≠ RFailed IndexError.
Proof.
  induction incoming as [|[source m] incoming IH] using rev_ind; [done|].
  rewrite probe_loop_snoc.
  destruct (r_pc (probe_loop d incoming (root_start d tks g))) eqn:Hpc;
    try (by rewrite Hpc).
  rewrite root_recv_pc.
  pose proof (al_counters _ _ _ _ (probe_loop_alone_ok d tks g incoming)) as Hc.
  destruct (handle_assignment_spec source m (r_q (probe_loop d incoming (root_start d tks g))));
    simpl;
    try match goal with |- context [check_notified ?s] =>
      destruct (check_notified_cases s) as [[-> ?]|[-> ?]] end;
    try discriminate.
  destruct (py_getitem_current tks _ _ Hc) as [Hg [t Ht]]; [done|]. congruence.
Qed.

Lemma replied_to_app tr1 tr2 : replied_to (tr1 ++ tr2) = replied_to tr1 ++ replied_to tr2.
Proof. apply omap_app. Qed.

Lemma terminates_sent_app tr1 tr2 :
  terminates_sent (tr1 ++ tr2) = (terminates_sent tr1 + terminates_sent tr2)%nat.
Proof. unfold terminates_sent. by rewrite filter_app, length_app. Qed.

Lemma finish_quiet d vals :
  replied_to (finish d vals).1 = [] ∧ terminates_sent (finish d vals).1 = 0%nat.
Proof. by destruct d as [|[]]. Qed.

Lemma start_quiet d ids :
  replied_to (start_trace d ids) = [] ∧ terminates_sent (start_trace d ids) = 0%nat.
Proof. by destruct d. Qed.

Lemma requesters_snoc incoming source m :
  requesters (incoming ++ [(source, m)]) =
    requesters incoming ++ if decide (msg m = "task_req") then [source] else [].
Proof.
  unfold requesters. rewrite filter_app, fmap_app. f_equal.
  rewrite filter_cons, filter_nil. simpl. by case_decide.
Qed.

Lemma root_recv_replies d tks J source m p :
  counters_ok tks J (r_q p) →
  replied_to (r_trace (root_recv d source m p).1)
    = replied_to (r_trace p) ++ (if decide (msg m = "task_req") then [source] else [])
  ∧ Z.of_nat (terminates_sent (r_trace (root_recv d source m p).1))
      - Z.of_nat (terminates_sent (r_trace p))
    = _notified (r_q (root_recv d source m p).1) - _notified (r_q p).
Proof.
  intros Hc.
  root_recv_cases source m (r_q p);
    rewrite ?replied_to_app, ?terminates_sent_app; simpl;
    rewrite ?(proj1 (finish_quiet d _)), ?(proj2 (finish_quiet d _)), ?app_nil_r;
    try (case_decide; [|congruence]); try (case_decide; [congruence|]);
    rewrite ?app_nil_r; try (split; [done|]; unfold terminates_sent; simpl; lia).
  destruct (py_getitem_current tks J (r_q p) Hc) as [Hg [t Ht]]; [done|]. congruence.
Qed.

Lemma probe_loop_terminates_sent d tks g incoming :
  Z.of_nat (terminates_sent (r_trace (probe_loop d incoming (root_start d tks g))))
  = _notified (r_q (probe_loop d incoming (root_start d tks g))).
Proof.
  induction incoming as [|[source m] incoming IH] using rev_ind.
  - unfold probe_loop, root_start. simpl. by rewrite (proj2 (start_quiet d _)).
  - rewrite probe_loop_snoc.
    destruct (r_pc (probe_loop d incoming (root_start d tks g))) eqn:Hpc; try done.
    pose proof (al_counters _ _ _ _ (probe_loop_alone_ok d tks g incoming)) as Hc.
    destruct (root_recv_replies d tks _ source m _ Hc) as [_ H]. lia.
Qed.

Lemma probe_loop_replies d tks g incoming :
  r_pc (probe_loop d incoming (root_start d tks g)) = RLoop →
  replied_to (r_trace (probe_loop d incoming (root_start d tks g))) = requesters incoming.
Proof.
  induction incoming as [|[source m] incoming IH] using rev_ind.
  - intros _. unfold probe_loop, root_start. simpl. by rewrite (proj1 (start_quiet d _)).
  - rewrite probe_loop_snoc.
    destruct (r_pc (probe_loop d incoming (root_start d tks g))) eqn:Hpc;
      try (by intros Hpc'; rewrite Hpc' in Hpc).
    intros _.
    pose proof (al_counters _ _ _ _ (probe_loop_alone_ok d tks g incoming)) as Hc.
    destruct (root_recv_replies d tks _ source m _ Hc) as [-> _].
    by rewrite IH, requesters_snoc.
Qed.

(** Every task-request the coordinator handles is answered with exactly one
    message, sent to the process that asked, in the order of arrival; a
    result-delivery is never answered.  So the destinations of all messages
    sent are the sources of the task-requests handled, in order, and this
    still holds for the message on which the loop ends or fails.  The
    number of terminate messages sent is [_notified]. *)
Theorem one_reply_per_request d tks g incoming source m :
  let p0 := root_start d tks g in
  r_pc (probe_loop d incoming p0) = RLoop →
  replied_to (r_trace (probe_loop d incoming p0)) = requesters incoming
  ∧ replied_to (r_trace (probe_loop d (incoming ++ [(source, m)]) p0))
    = requesters (incoming ++ [(source, m)])
  ∧ Z.of_nat (terminates_sent (r_trace (probe_loop d (incoming ++ [(source, m)]) p0)))
    = _notified (r_q (probe_loop d (incoming ++ [(source, m)]) p0)).
Proof.
  intros p0 Hpc. subst p0. split; [by apply probe_loop_replies|]. split.
  - rewrite probe_loop_snoc, Hpc.
    pose proof (al_counters _ _ _ _ (probe_loop_alone_ok d tks g incoming)) as Hc.
    destruct (root_recv_replies d tks _ source m _ Hc) as [-> _].
    by rewrite probe_loop_replies, requesters_snoc.
  - apply probe_loop_terminates_sent.
Qed.

Lemma probe_loop_running_prefix d pre post p :
  r_pc (probe_loop d (pre ++ post) p) = RLoop → r_pc (probe_loop d pre p) = RLoop.
Proof.
  rewrite probe_loop_app. intros Hpc.
  destruct (r_pc (probe_loop d pre p)) eqn:Hpre; [done| |];
    rewrite probe_loop_over in Hpc by (by rewrite Hpre); congruence.
Qed.

Lemma handles_other_source source' source m self h :
  handles source' m self h → source' ≠ source →
  assignments (h_self h) !! source = assignments self !! source.
Proof.
  intros Hh Hne. destruct Hh; simpl; try done. by rewrite lookup_insert_ne.
Qed.

Lemma request_gets_next_task d tks g incoming source m task :
  let p0 := root_start d tks g in
  r_pc (probe_loop d incoming p0) = RLoop → msg m = "task_req" →
  tks !! count_requests incoming = Some task →
  h_sent (handle_assignment source m (r_q (probe_loop d incoming p0)))
    = [(source, set_value messages_task task)]
  ∧ assignments (r_q (probe_loop d (incoming ++ [(source, m)]) p0)) !! source
    = Some (Z.of_nat (count_requests incoming)).
Proof.
  intros p0 Hpc Hm Ht. subst p0.
  pose proof (probe_loop_alone_ok d tks g incoming) as [Hc _ _ Hr _ _].
  specialize (Hr Hpc). pose proof Hc as [_ _ Hcur Hrem Htot Hnot Hdr].
  apply lookup_lt_Some in Ht as Hlt.
  rewrite probe_loop_snoc, Hpc, root_recv_q.
  destruct (handle_assignment_spec source m
              (r_q (probe_loop d incoming (root_start d tks g))));
    try congruence; simpl.
  - lia.
  - destruct (py_getitem_current tks _ _ Hc) as [Hg [t Hsome]]; [done|]. congruence.
  - destruct (py_getitem_current tks _ _ Hc) as [Hg _]; [done|].
    assert (count_requests incoming
            = Z.to_nat (_current (r_q (probe_loop d incoming (root_start d tks g)))))
      as Hn by lia.
    rewrite Hn in Ht. rewrite lookup_insert_eq. split; [congruence|]. f_equal. lia.
Qed.

(** A leader asks, is given a task, and later sends the result: the result
    is stored under the id of that task, whatever the coordinator handles
    from other leaders in between. *)
Theorem result_filed_under_task_id d tks g pre source req mid res v task :
  let p0 := root_start d tks g in
  msg req = "task_req" → msg res = "result" → value res = Some v →
  tks !! count_requests pre = Some task →
  Forall (λ im, im.1 ≠ source) mid →
  r_pc (probe_loop d (pre ++ (source, req) :: mid) p0) = RLoop →
  h_sent (handle_assignment source req (r_q (probe_loop d pre p0)))
    = [(source, set_value messages_task task)]
  ∧ results (r_q (probe_loop d (pre ++ (source, req) :: mid ++ [(source, res)]) p0))
      !! Z.of_nat (count_requests pre) = Some v.
Proof.
  intros p0 Hreq Hres Hv Ht Hmid Hpc. subst p0.
  set (p0 := root_start d tks g) in *.
  assert (r_pc (probe_loop d pre p0) = RLoop) as Hpre.
  { by apply (probe_loop_running_prefix d pre ((source, req) :: mid)). }
  destruct (request_gets_next_task d tks g pre source req task Hpre Hreq Ht)
    as [Hsent Hasg]. fold p0 in Hsent, Hasg.
  split; [done|].
  assert (assignments (r_q (probe_loop d (pre ++ (source, req) :: mid) p0)) !! source
          = Some (Z.of_nat (count_requests pre))) as Hkeep.
  { revert Hmid Hpc. induction mid as [|[src m] mid IH] using rev_ind; intros Hmid Hpc.
    - exact Hasg.
    - apply Forall_app in Hmid as [Hmid Hsrc]. rewrite Forall_singleton in Hsrc.
      replace (pre ++ (source, req) :: mid ++ [(src, m)])
        with ((pre ++ (source, req) :: mid) ++ [(src, m)]) in *
        by (by rewrite <- app_assoc).
      assert (r_pc (probe_loop d (pre ++ (source, req) :: mid) p0) = RLoop) as Hpc'.
      { by apply (probe_loop_running_prefix d _ [(src, m)]). }
      rewrite probe_loop_snoc, Hpc', root_recv_q.
      rewrite (handles_other_source src source m _ _ (handle_assignment_spec _ _ _))
        by exact Hsrc.
      by apply IH. }
  replace (pre ++ (source, req) :: mid ++ [(source, res)])
    with ((pre ++ (source, req) :: mid) ++ [(source, res)])
    by (by rewrite <- app_assoc).
  rewrite probe_loop_snoc, Hpc, root_recv_q.
  destruct (handle_assignment_spec source res
              (r_q (probe_loop d (pre ++ (source, req) :: mid) p0)));
    try congruence; simpl.
  simplify_eq. by rewrite lookup_insert_eq.
Qed.

(** * Further properties of the process groups *)

Lemma section_sizes_all (n : nat) : (0 < n)%nat → section_sizes n n = replicate n 1%nat.
Proof.
  intros Hn. unfold section_sizes.
  rewrite Nat.Div0.mod_same, Nat.div_same by lia. simpl. by rewrite Nat.sub_0_r.
Qed.

Lemma sub_arys_ones (a n : nat) :
  sub_arys (replicate n 1%nat) (seq a n) = (λ r, [r]) <$> seq a n.
Proof.
  revert a. induction n as [|n IH]; intros a; simpl; [done|].
  rewrite take_0, drop_0. f_equal. apply IH.
Qed.

(** With [njobs <= 0] the drivers work with [my_size - 1] jobs: the call is
    the same as the one with [njobs = my_size - 1], every process is a
    group of its own, and the index of a process's group is its rank. *)
Theorem default_job_count d (my_size my_rank : nat) tks (njobs : Z) :
  njobs ≤ 0 → (2 ≤ my_size)%nat → (my_rank < my_size)%nat →
  setup_groups true my_size my_rank njobs
    = inr (Groups (Z.of_nat my_size - 1) ((λ r, [r]) <$> seq 0 my_size) my_rank)
  ∧ setup_groups true my_size my_rank njobs
    = setup_groups true my_size my_rank (Z.of_nat my_size - 1)
  ∧ start d true my_size tks njobs = start d true my_size tks (Z.of_nat my_size - 1).
Proof.
  intros Hn Hs Hr.
  assert (∀ nj rank, effective_njobs my_size nj = Z.of_nat my_size - 1 → (rank < my_size)%nat →
            setup_groups true my_size rank nj
            = inr (Groups (Z.of_nat my_size - 1) ((λ r, [r]) <$> seq 0 my_size) rank)) as Hgen.
  { intros nj rank HE Hrank.
    destruct (setup_groups_ok my_size rank nj) as (i & grp & Hsg & Hi & Hin & Hu);
      rewrite ?HE; [lia|done|]. rewrite HE in *.
    assert ([0%nat] :: worker_groups my_size (Z.of_nat my_size - 1)
            = (λ r, [r]) <$> seq 0 my_size) as Hall.
    { unfold worker_groups, arange. rewrite length_seq.
      replace (Z.to_nat (Z.of_nat my_size - 1)) with (my_size - 1)%nat by lia.
      rewrite section_sizes_all by lia. rewrite sub_arys_ones.
      destruct my_size as [|n]; [lia|]. simpl. by rewrite Nat.sub_0_r. }
    rewrite Hall in *.
    assert (rank = i) as <-; [|done].
    apply (Hu rank [rank]); [|left].
    rewrite list_lookup_fmap, lookup_seq_lt by done. done. }
  assert (effective_njobs my_size njobs = Z.of_nat my_size - 1) as HE1.
  { unfold effective_njobs. destruct (Z.leb_spec njobs 0); lia. }
  assert (effective_njobs my_size (Z.of_nat my_size - 1) = Z.of_nat my_size - 1) as HE2.
  { unfold effective_njobs. destruct (Z.leb_spec (Z.of_nat my_size - 1) 0); lia. }
  split; [by apply Hgen|]. split.
  - by rewrite !Hgen.
  - unfold start. by rewrite !Hgen by (done || lia).
Qed.

(** What the common head of the two drivers (lines 133-150) does for a
    rank below [my_size], in all cases: it raises at one of the two guards
    exactly when [parallel_capable] is false or the job count is at least
    [my_size]; it fails inside [array_split] exactly when a single process
    passes as parallel capable and asks for the default job count; it
    succeeds in every other case, and then the scan has found a group. *)
Theorem setup_groups_outcome (parallel_capable : bool) (my_size my_rank : nat) (njobs : Z) :
  (my_rank < my_size)%nat →
  let J := effective_njobs my_size njobs in
  let r := setup_groups parallel_capable my_size my_rank njobs in
  (r = inl RunTimeError ↔ parallel_capable = false ∨ Z.of_nat my_size ≤ J)
  ∧ (r = inl ValueError ↔ parallel_capable = true ∧ njobs ≤ 0 ∧ my_size = 1%nat)
  ∧ ((∃ g, r = inr g) ↔ parallel_capable = true ∧ 1 ≤ J < Z.of_nat my_size)
  ∧ (∀ g, r = inr g →
       g_njobs g = J ∧ ∃ grp, all_new_comms g !! my_new_id g = Some grp ∧ my_rank ∈ grp)
  ∧ r ≠ inl UnboundLocalError.
Proof.
  intros Hrank J r.
  assert (njobs ≤ 0 → J = Z.of_nat my_size - 1) as HJdef.
  { intros. unfold J, effective_njobs. destruct (Z.leb_spec njobs 0); lia. }
  assert (0 < njobs → J = njobs) as HJpos.
  { intros. unfold J, effective_njobs. destruct (Z.leb_spec njobs 0); lia. }
  assert ((parallel_capable = false ∧ r = inl RunTimeError)
          ∨ (parallel_capable = true ∧ Z.of_nat my_size ≤ J ∧ r = inl RunTimeError)
          ∨ (parallel_capable = true ∧ J ≤ 0 ∧ J < Z.of_nat my_size ∧ r = inl ValueError)
          ∨ (parallel_capable = true ∧ 1 ≤ J < Z.of_nat my_size
             ∧ ∃ g grp, r = inr g ∧ g_njobs g = J
                        ∧ all_new_comms g !! my_new_id g = Some grp ∧ my_rank ∈ grp))
    as Hcases.
  { subst r. destruct parallel_capable; [|by left]. right.
    destruct (decide (1 ≤ J < Z.of_nat my_size)) as [HJ|HJ].
    - right. right. split; [done|]. split; [done|].
      destruct (setup_groups_ok my_size my_rank njobs HJ Hrank)
        as (i & grp & Hs & Hi & Hin & _).
      fold J in Hs, Hi. rewrite Hs. eexists _, grp. split; [done|]. simpl. done.
    - unfold setup_groups. simpl. fold (effective_njobs my_size njobs). fold J.
      destruct (Z.geb_spec J (Z.of_nat my_size)) as [Hge|Hlt]; [by left|].
      right. left. unfold array_split. destruct (Z.leb_spec J 0); [|lia]. done. }
  destruct Hcases as [[-> Hr]|[(-> & HJ & Hr)|[(-> & HJ0 & HJ & Hr)|(-> & HJ & g & grp & Hr & Hg & Hi & Hin)]]];
    rewrite Hr; clear Hr r.
  - split; [split; [by left|done]|]. split; [split; [done|by intros [? _]]|].
    split; [split; [by intros [? ?]|by intros [? _]]|]. split; [done|done].
  - split; [split; [by right|done]|].
    split; [split; [done|intros (_ & Hn & Hsz); specialize (HJdef Hn); lia]|].
    split; [split; [by intros [? ?]|intros [_ ?]; lia]|]. split; [done|done].
  - split; [split; [done|intros [?|?]; [done|lia]]|].
    split; [split; [intros _|done]|].
    { split; [done|]. destruct (decide (njobs ≤ 0)) as [Hn|Hn].
      - specialize (HJdef Hn). lia.
      - specialize (HJpos ltac:(lia)). lia. }
    split; [split; [by intros [? ?]|intros [_ ?]; lia]|]. split; [done|done].
  - split; [split; [done|intros [?|?]; [done|lia]]|].
    split; [split; [done|intros (_ & Hn & Hsz); specialize (HJdef Hn); lia]|].
    split; [split; [done|eauto]|].
    split; [|done]. intros g' [= <-]. eauto.
Qed.

Lemma heads_lookup (gs : list (list nat)) k :
  (∀ g, g ∈ gs → g ≠ []) → omap head gs !! k = gs !! k ≫= head.
Proof.
  revert k. induction gs as [|g gs IH]; intros k Hne; [done|].
  destruct g as [|x g]; [by destruct (Hne []); [left|]|].
  simpl. destruct k as [|k]; simpl; [done|].
  apply IH. intros g' Hg'. apply Hne. by right.
Qed.

(** Every worker group has a leader: its first and smallest rank, which is
    never the coordinator's rank 0.  The leaders are pairwise distinct and
    there are exactly as many as the job count the coordinator is created
    with, the number of terminate messages it waits for; they are the
    workers a run starts with. *)
Theorem one_leader_per_group d (my_size : nat) tks (njobs0 : Z) :
  let J := effective_njobs my_size njobs0 in
  1 ≤ J < Z.of_nat my_size →
  length (leaders my_size J) = Z.to_nat J
  ∧ NoDup (leaders my_size J)
  ∧ (∀ k grp, worker_groups my_size J !! k = Some grp →
       ∃ b, head grp = Some b ∧ leaders my_size J !! k = Some b
            ∧ (1 ≤ b < my_size)%nat ∧ ∀ r, r ∈ grp → (b ≤ r)%nat)
  ∧ ∃ s0, start d true my_size tks njobs0 = inr s0
          ∧ w_rank <$> workers s0 = leaders my_size J
          ∧ njobs (r_q (root s0)) = J.
Proof.
  intros J HJ.
  destruct (leaders_props my_size J HJ) as [Hnd Hlen].
  destruct (worker_groups_props my_size J HJ) as (_ & Hc & Hseq & _ & Hne).
  split; [done|]. split; [done|]. split.
  - intros k grp Hk.
    assert (grp ∈ worker_groups my_size J) as Hin by by eapply list_elem_of_lookup_2.
    destruct (Hseq grp Hin) as [b Hb].
    destruct grp as [|x grp]; [by destruct (Hne [] Hin)|].
    simpl in Hb. injection Hb as -> Hrest.
    exists b. split; [done|]. split.
    { unfold leaders. rewrite heads_lookup by done. by rewrite Hk. }
    assert (∀ r, r ∈ b :: grp → (1 ≤ r < my_size)%nat) as Hrange.
    { intros r Hr. assert (r ∈ concat (worker_groups my_size J)) as Hrc.
      { apply elem_of_concat. eauto. }
      rewrite Hc in Hrc. apply elem_of_seq in Hrc. lia. }
    split; [apply Hrange; left|].
    intros r [->|Hr]%elem_of_cons; [done|].
    rewrite Hrest in Hr. apply elem_of_seq in Hr. lia.
  - destruct (start_ok d my_size tks njobs0 HJ) as (s0 & Hs0 & Hok & _).
    exists s0. split; [done|]. split; [by destruct Hok|].
    by destruct Hok as [[[_ ? _ _ _ _ _] _ _] _ _ _ _].
Qed.

(** * Further properties of whole runs *)

Lemma reachable_ok d (my_size : nat) tks (njobs0 : Z) :
  let J := effective_njobs my_size njobs0 in
  1 ≤ J < Z.of_nat my_size →
  ∃ s0, start d true my_size tks njobs0 = inr s0
    ∧ (∃ sched s, exec d sched s0 = Some s ∧ finished s)
    ∧ ∀ sched s, exec d sched s0 = Some s →
        system_ok d tks J (leaders my_size J) s
        ∧ (length sched ≤ 5 * length tks + 4 * Z.to_nat J)%nat
        ∧ (terminal d s → finished s).
Proof.
  intros J HJ.
  destruct (start_ok d my_size tks njobs0 HJ) as (s0 & Hs0 & Hok0 & Hpot).
  destruct (leaders_props my_size J HJ) as [Hnd Hlen].
  assert (Z.of_nat (length (leaders my_size J)) = J) as HlenJ by lia.
  exists s0. split; [done|]. split; [by eapply run_to_end|].
  intros sched s Hexec.
  destruct (exec_ok d tks J _ sched s0 s Hnd Hok0 Hexec) as [Hok Hle].
  split; [done|]. split; [lia|]. by eapply terminal_finished.
Qed.

(** With either driver, with or without a storage, and in whatever order
    the processes move: the run starts, can be brought to the point where
    every process has returned, takes at most [5 * len(tasks) + 4 * njobs]
    moves, cannot get stuck before that point, and none of the exceptions
    of the queue is ever raised, neither in the coordinator nor in a
    leader. *)
Theorem every_run_ends_well d (my_size : nat) tks (njobs0 : Z) :
  let J := effective_njobs my_size njobs0 in
  1 ≤ J < Z.of_nat my_size →
  ∃ s0, start d true my_size tks njobs0 = inr s0
    ∧ (∃ sched s, exec d sched s0 = Some s ∧ finished s)
    ∧ ∀ sched s, exec d sched s0 = Some s →
        (length sched ≤ 5 * length tks + 4 * Z.to_nat J)%nat
        ∧ (terminal d s → finished s)
        ∧ (∀ e, r_pc (root s) ≠ RFailed e)
        ∧ (∀ w e, w ∈ workers s → w_pc w ≠ WFailed e).
Proof.
  intros J HJ.
  destruct (reachable_ok d my_size tks njobs0 HJ) as (s0 & Hs0 & Hrun & Hall).
  exists s0. split; [done|]. split; [done|].
  intros sched s Hexec. destruct (Hall sched s Hexec) as (Hok & Hlen & Hterm).
  split; [done|]. split; [done|]. split.
  - intros e He. destruct Hok as [[_ [[? _]|[? _]] _] _ _ _ _]; congruence.
  - intros w e Hw He. destruct Hok as [_ Hws _ _ _].
    pose proof (proj1 (Forall_forall _ _) Hws w Hw) as Hwok.
    by destruct Hwok.
Qed.

(** The channels stay short.  At any moment of a run a leader has at most
    two messages on their way to the coordinator (a result and the request
    behind it), at most one reply waiting for it, and never both: no reply
    is under way while a message of the leader is still unhandled. *)
Theorem channels_bounded d (my_size : nat) tks (njobs0 : Z) sched s0 s w :
  let J := effective_njobs my_size njobs0 in
  1 ≤ J < Z.of_nat my_size →
  start d true my_size tks njobs0 = inr s0 →
  exec d sched s0 = Some s →
  w ∈ workers s →
  (length (w_up w) ≤ 2)%nat ∧ (length (w_down w) ≤ 1)%nat
  ∧ (w_up w = [] ∨ w_down w = [])
  ∧ (submitter d = None → (length (w_up w) ≤ 1)%nat).
Proof.
  intros J HJ Hstart Hexec Hw.
  destruct (reachable_ok d my_size tks njobs0 HJ) as (s0' & Hs0 & _ & Hall).
  rewrite Hstart in Hs0. injection Hs0 as <-.
  destruct (Hall sched s Hexec) as ([_ Hws _ _ _] & _).
  pose proof (proj1 (Forall_forall _ _) Hws w Hw) as Hwok.
  destruct Hwok; simpl; repeat split; auto; try lia; intros; congruence.
Qed.

(** While the run goes on the result mapping is never wrong: every entry it
    holds at any moment is the result of applying the work function to the
    task of that id. *)
Theorem results_always_right d f (my_size : nat) tks (njobs0 : Z) sched s0 s i v :
  let J := effective_njobs my_size njobs0 in
  1 ≤ J < Z.of_nat my_size →
  submitter d = Some f →
  start d true my_size tks njobs0 = inr s0 →
  exec d sched s0 = Some s →
  results (r_q (root s)) !! i = Some v →
  0 ≤ i < _current (r_q (root s))
  ∧ ∃ task, tks !! Z.to_nat i = Some task ∧ v = f task.
Proof.
  intros J HJ Hf Hstart Hexec Hv.
  destruct (reachable_ok d my_size tks njobs0 HJ) as (s0' & Hs0 & _ & Hall).
  rewrite Hstart in Hs0. injection Hs0 as <-.
  destruct (Hall sched s Hexec) as ([[_ _ Hres] _ _ _ _] & _).
  destruct (Hres i v Hv) as (H0 & task & Ht & Hvf).
  split; [|exists task; split; [done|by apply Hvf]].
  destruct (start_root _ _ _ _ _ _ Hstart) as [g Hg].
  destruct (exec_probe_loop d sched s0 s [] (root_start d tks g)) as [incoming Hroot];
    [done..|].
  destruct (probe_loop_tables_bounded d tks g incoming) as [_ Hb].
  rewrite <- Hroot in Hb. apply Hb. by rewrite Hv.
Qed.

(** [dynamic_parallel_objects] with a storage: when the coordinator has
    left its loop, the storage it ends with is the storage it was given,
    updated with one entry per task id, [body(tasks[i])] under [i]
    (entries of the storage under other keys are kept, entries under task
    ids are replaced); and every leader that has returned ends with the
    same mapping. *)
Theorem dynamic_storage_results (storage : gmap Z obj) (body : obj → obj)
    (my_size : nat) tks (njobs0 : Z) :
  let J := effective_njobs my_size njobs0 in
  let d := dynamic_parallel_objects (Some storage) body in
  1 ≤ J < Z.of_nat my_size →
  ∃ s0, start d true my_size tks njobs0 = inr s0
    ∧ (∃ sched s, exec d sched s0 = Some s ∧ finished s)
    ∧ ∀ sched s, exec d sched s0 = Some s →
        (∀ ret, r_pc (root s) = RReturned ret →
           ∃ after, ret = Some after
             ∧ ∀ i, after !! i =
                      if bool_decide (0 ≤ i < Z.of_nat (length tks))
                      then body <$> tks !! Z.to_nat i
                      else storage !! i)
        ∧ (∀ w ret, w ∈ workers s → w_pc w = WReturned ret →
             r_pc (root s) = RReturned ret).
Proof.
  intros J d HJ.
  destruct (reachable_ok d my_size tks njobs0 HJ) as (s0 & Hs0 & Hrun & Hall).
  destruct (leaders_props my_size J HJ) as [Hnd Hlen].
  assert (Z.of_nat (length (leaders my_size J)) = J) as HlenJ by lia.
  exists s0. split; [done|]. split; [done|].
  intros sched s Hexec. destruct (Hall sched s Hexec) as (Hok & _ & _).
  pose proof (returned_results d tks J _ s body HlenJ ltac:(lia) Hok eq_refl) as Hres.
  split.
  - intros ret Hpc. assert (r_pc (root s) ≠ RLoop) as Hne by congruence.
    exists (results (r_q (root s)) ∪ storage). split.
    { destruct Hok as [[_ [[? _]|[Hpc' _]] _] _ _ _ _]; [congruence|].
      unfold d in Hpc'. simpl in Hpc'. congruence. }
    intros i. specialize (Hres Hne i).
    destruct (decide (0 ≤ i < Z.of_nat (length tks))) as [Hi|Hi].
    + rewrite (bool_decide_eq_true_2 _ Hi).
      rewrite bool_decide_eq_true_2 in Hres by lia.
      destruct (tks !! Z.to_nat i) as [task|] eqn:Ht.
      * simpl in *. by apply lookup_union_Some_l.
      * apply lookup_ge_None in Ht. lia.
    + rewrite (bool_decide_eq_false_2 _ Hi).
      rewrite lookup_union_r; [done|].
      rewrite Hres. destruct (decide (0 ≤ i)) as [Hi0|Hi0].
      * rewrite (bool_decide_eq_true_2 _ Hi0).
        rewrite lookup_ge_None_2; [done|]. lia.
      * by rewrite (bool_decide_eq_false_2 _ Hi0).
  - intros w ret Hw Hret. destruct Hok as [[_ Hpc _] Hws _ _ _].
    pose proof (proj1 (Forall_forall _ _) Hws w Hw) as Hwok.
    destruct Hwok as [| | | | | | | |rank tr Hcl Hb]; simpl in Hret; simplify_eq.
    destruct Hpc as [[Hl _]|[? _]]; [|done]. by destruct Hb.
Qed.

Lemma handles_request_keeps_results source self h :
  handles source (@messages_task_req obj) self h → results (h_self h) = results self.
Proof. intros Hh. by destruct Hh. Qed.

(** [dynamic_parallel_objects] without a storage never records anything:
    the only messages the leaders send are task-requests, the result
    mapping of the coordinator stays empty throughout, and every process
    that returns returns nothing. *)
Theorem no_storage_records_nothing (body : obj → obj) (my_size : nat) tks (njobs0 : Z)
    sched s0 s :
  let J := effective_njobs my_size njobs0 in
  let d := dynamic_parallel_objects None body in
  1 ≤ J < Z.of_nat my_size →
  start d true my_size tks njobs0 = inr s0 →
  exec d sched s0 = Some s →
  results (r_q (root s)) = ∅
  ∧ (∀ w m, w ∈ workers s → m ∈ w_up w → m = messages_task_req)
  ∧ (∀ ret, r_pc (root s) = RReturned ret → ret = None)
  ∧ (∀ w ret, w ∈ workers s → w_pc w = WReturned ret → ret = None).
Proof.
  intros J d HJ Hstart Hexec.
  destruct (start_ok d my_size tks njobs0 HJ) as (s0' & Hs0 & Hok0 & _).
  rewrite Hstart in Hs0. injection Hs0 as <-.
  destruct (leaders_props my_size J HJ) as [Hnd _].
  destruct (exec_ok d tks J _ sched s0 s Hnd Hok0 Hexec) as [Hok _].
  assert (∀ w m, w ∈ workers s → m ∈ w_up w → m = messages_task_req) as Hup.
  { intros w m Hw Hm. destruct Hok as [_ Hws _ _ _].
    pose proof (proj1 (Forall_forall _ _) Hws w Hw) as Hwok.
    destruct Hwok; simpl in *; try (by apply elem_of_nil in Hm); try done.
    by apply list_elem_of_singleton in Hm. }
  split; [|split; [done|split]].
  - assert (results (r_q (root s0)) = ∅) as H0.
    { destruct (start_root _ _ _ _ _ _ Hstart) as [g ->]. done. }
    clear Hstart Hok Hup. revert s0 Hok0 H0 Hexec.
    induction sched as [|a sched IH]; intros s0 Hok0 H0 Hexec; simpl in Hexec.
    + by simplify_eq.
    + destruct (step d a s0) as [s1|] eqn:Hstep; [|done].
      destruct (step_ok d tks J _ s0 a s1 Hnd Hok0 Hstep) as [Hok1 _].
      apply (IH s1 Hok1); [|done]. destruct a as [k|k].
      * apply root_move_shape in Hstep as (w & m & rest & Hk & Hupw & _ & -> & _).
        rewrite root_recv_q.
        destruct Hok0 as [_ Hws _ _ _].
        pose proof (Forall_lookup_1 _ _ _ _ Hws Hk) as Hwok.
        destruct Hwok; simpl in Hupw; simplify_eq.
        by rewrite (handles_request_keeps_results _ _ _ (handle_assignment_spec _ _ _)).
      * apply worker_move_shape in Hstep as (_ & _ & _ & _ & -> & _). done.
  - intros ret Hpc. destruct Hok as [[_ [[? _]|[Hpc' _]] _] _ _ _ _]; [congruence|].
    unfold d in Hpc'. simpl in Hpc'. congruence.
  - intros w ret Hw Hret. destruct Hok as [_ Hws _ _ _].
    pose proof (proj1 (Forall_forall _ _) Hws w Hw) as Hwok.
    destruct Hwok; simpl in Hret; simplify_eq. done.
Qed.

End Proofs.

(** * Concrete runs *)

(** C2 after two requests, from ranks 2 and 1: the third request, from
    rank 2 again, gets the third task under id 2. *)
Lemma tasks_in_order_witness :
  let p0 := root_start (task_queue double) [10; 20; 30] (Groups 2 [[0]; [1]; [2]]%nat 0) in
  let incoming := [(2%nat, messages_task_req); (1%nat, messages_task_req)] in
  let h := handle_assignment 2 messages_task_req (r_q (probe_loop (task_queue double) incoming p0)) in
  h_sent h = [(2%nat, set_value messages_task 30)]
  ∧ assignments (h_self h) !! 2%nat = Some 2
  ∧ delivered (r_trace (probe_loop (task_queue double) incoming p0)) = [10; 20].
Proof.
  intros p0 incoming h.
  destruct (tasks_in_order (task_queue double) [10; 20; 30]
              (Groups 2 [[0]; [1]; [2]]%nat 0) incoming
              ltac:(vm_compute; discriminate)) as (Hreq & Hdel & _).
  specialize (Hreq 2%nat messages_task_req
                ltac:(vm_compute; reflexivity) ltac:(reflexivity)).
  destruct Hreq as [Hsent Hassign].
  split; [exact Hsent|]. split; [exact Hassign|]. exact Hdel.
Defined.

(** C3 at the end of the full schedule. *)
Lemma loop_ends_when_all_notified_witness :
  ∃ s0 s,
    start (task_queue double) true 3 [10; 20; 30] 0 = inr s0
    ∧ exec (task_queue double) full_schedule s0 = Some s
    ∧ (r_pc (root s) = RLoop ↔ _notified (r_q (root s)) < 2)
    ∧ (_notified (r_q (root s)) = 2 ↔
         ∀ w, w ∈ workers s → EvSend (w_rank w) 2 messages_end ∈ r_trace (root s)).
Proof.
  eexists _, _. split; [vm_compute; reflexivity|]. split; [vm_compute; reflexivity|].
  match goal with
  | |- context [r_pc (root ?s)] =>
      destruct (loop_ends_when_all_notified (task_queue double) 3 [10; 20; 30] 0
                  full_schedule _ s
                  ltac:(vm_compute; split; [discriminate | reflexivity])
                  ltac:(vm_compute; reflexivity) ltac:(vm_compute; reflexivity))
        as (_ & _ & _ & Hloop & _ & Htold)
  end.
  split; [exact Hloop | exact Htold].
Defined.

(** C4: five jobs asked for on two processes. *)
Lemma bad_job_count_raises_witness :
  call (task_queue double) true 2 0 5 = CallRaised RunTimeError
  ∧ first_next (dynamic_parallel_objects None double) true 2 0 5 = Some (inl RunTimeError).
Proof.
  split.
  - exact (proj2 (bad_job_count_raises (task_queue double) true 2 0 5
                    ltac:(intros _; vm_compute; lia) ltac:(left; vm_compute; discriminate))).
  - exact (proj2 (proj2 (bad_job_count_raises (dynamic_parallel_objects None double)
                           true 2 0 5
                           ltac:(intros _; vm_compute; lia)
                           ltac:(left; vm_compute; discriminate)))).
Defined.

(** C4 as stated fails for the generator: the call itself raises nothing. *)
Lemma generator_call_does_not_raise :
  Z.of_nat 2 ≤ 5
  ∧ call (dynamic_parallel_objects None double) true 2 0 5 = CallGenerator
  ∧ call (dynamic_parallel_objects None double) true 2 0 5 ≠ CallRaised RunTimeError.
Proof. split; [vm_compute; discriminate|]. split; [reflexivity | discriminate]. Qed.

(** C5 for [task_queue]: one leader, up to its second request. *)
Lemma cycle_alternates_witness :
  ∃ s0 s w,
    start (task_queue double) true 2 [10; 20] 0 = inr s0
    ∧ exec (task_queue double) one_task_schedule s0 = Some s
    ∧ workers s !! 0%nat = Some w
    ∧ w_trace w =
        [EvPush [1%nat]; EvPop;
         EvSend 0 1 messages_task_req;
         EvRecv 0 2 (set_value messages_task 10);
         EvSubBcast (set_value messages_task 10);
         EvSend 0 1 (set_value messages_result 20); EvBarrier;
         EvSend 0 1 messages_task_req]
    ∧ alternating (w_trace w) = true.
Proof.
  eexists _, _, _. split; [vm_compute; reflexivity|]. split; [vm_compute; reflexivity|].
  split; [vm_compute; reflexivity|]. split; [vm_compute; reflexivity|].
  match goal with
  | |- alternating (w_trace ?w) = true =>
      exact (proj2 (cycle_alternates (task_queue double) double true 2 [10; 20] 0
                      one_task_schedule _ _ w
                      ltac:(reflexivity) ltac:(vm_compute; reflexivity)
                      ltac:(vm_compute; reflexivity)
                      ltac:(apply list_elem_of_here)))
  end.
Defined.

(** C5 as stated fails for the generator without a storage: the leader
    never sends a result, and the same schedule hands it the second task
    right after the first. *)
Lemma no_storage_never_submits :
  ∃ s0 s w,
    start (dynamic_parallel_objects None double) true 2 [10; 20] 0 = inr s0
    ∧ exec (dynamic_parallel_objects None double) two_tasks_schedule s0 = Some s
    ∧ workers s !! 0%nat = Some w
    ∧ w_trace w =
        [EvPush [1%nat];
         EvSend 0 1 messages_task_req;
         EvRecv 0 2 (set_value messages_task 10);
         EvSubBcast (set_value messages_task 10);
         EvSend 0 1 messages_task_req;
         EvRecv 0 2 (set_value messages_task 20);
         EvSubBcast (set_value messages_task 20)]
    ∧ alternating (w_trace w) = false.
Proof.
  eexists _, _, _. split; [vm_compute; reflexivity|]. split; [vm_compute; reflexivity|].
  split; [vm_compute; reflexivity|]. split; vm_compute; reflexivity.
Qed.

(** C6 for the generator with a storage, one leader and no task: the
    leader has returned and its pop comes last. *)
Lemma group_popped_after_run_witness :
  ∃ s0 s w,
    start (dynamic_parallel_objects (Some ∅) double) true 2 [] 0 = inr s0
    ∧ exec (dynamic_parallel_objects (Some ∅) double) short_schedule s0 = Some s
    ∧ workers s !! 0%nat = Some w
    ∧ w_trace w =
        [EvPush [1%nat];
         EvSend 0 1 messages_task_req;
         EvRecv 0 2 messages_end;
         EvSubBcast messages_end;
         EvBcast ∅; EvPop]
    ∧ root_group_ok (root s) = true
    ∧ worker_group_ok (view w) = true.
Proof.
  eexists _, _, _. split; [vm_compute; reflexivity|]. split; [vm_compute; reflexivity|].
  split; [vm_compute; reflexivity|]. split; [vm_compute; reflexivity|].
  match goal with
  | |- _ ∧ worker_group_ok (view ?w) = true =>
      destruct (group_popped_after_run (Some ∅) double true 2 [] 0 short_schedule _ _
                  ltac:(vm_compute; reflexivity) ltac:(vm_compute; reflexivity))
        as (_ & Hroot & Hws);
      split; [exact Hroot | exact (Hws w ltac:(apply list_elem_of_here))]
  end.
Defined.

(** C6 as stated fails: [task_queue] pops the group before the run, so
    the first request of a leader already comes after the pop; and a
    coordinator of the generator that is stopped by an exception never pops
    its group. *)
Lemma group_not_scoped_to_run :
  (∃ s0 s w,
     start (task_queue double) true 2 [] 0 = inr s0
     ∧ exec (task_queue double) [AWorker 0] s0 = Some s
     ∧ workers s !! 0%nat = Some w
     ∧ w_trace w = [EvPush [1%nat]; EvPop; EvSend 0 1 messages_task_req]
     ∧ group_scoped (w_trace w) = false)
  ∧ (let d := dynamic_parallel_objects None double in
     let p := probe_loop d [(1%nat, bogus)] (root_start d [] (Groups 1 [[0]; [1]]%nat 0)) in
     r_pc p = RFailed RuntimeError
     ∧ r_trace p = [EvPush [0%nat]; EvRecv 1 1 bogus]
     ∧ group_released (r_trace p) = false).
Proof.
  split.
  - eexists _, _, _. split; [vm_compute; reflexivity|]. split; [vm_compute; reflexivity|].
    split; [vm_compute; reflexivity|]. split; vm_compute; reflexivity.
  - vm_compute. done.
Qed.

(** C7 on a message of kind "bogus" from rank 1. *)
Lemma unknown_message_aborts_witness :
  let d := task_queue double in
  let p0 := root_start d [10; 20] (Groups 1 [[0]; [1]]%nat 0) in
  probe_loop d ([(1%nat, messages_task_req)] ++ (1%nat, bogus) :: [(1%nat, messages_task_req)]) p0
  = RootProc (r_q (probe_loop d [(1%nat, messages_task_req)] p0)) (RFailed RuntimeError)
             (r_trace (probe_loop d [(1%nat, messages_task_req)] p0) ++ [EvRecv 1 1 bogus]).
Proof.
  intros d p0.
  exact (proj2 (proj2 (unknown_message_aborts d [(1%nat, messages_task_req)] 1 bogus p0
                         ltac:(vm_compute; reflexivity)))
           [(1%nat, messages_task_req)] ltac:(split; discriminate)).
Defined.

(** C8 on ten processes and three jobs, seen from rank 4. *)
Lemma partition_groups_witness :
  ∃ split i grp,
    setup_groups true 10 4 3 = inr (Groups 3 ([0%nat] :: split) i)
    ∧ length split = 3%nat
    ∧ concat split = seq 1 9
    ∧ ([0%nat] :: split) !! i = Some grp
    ∧ 4%nat ∈ grp.
Proof.
  destruct (partition_groups 10 4 3 ltac:(lia) ltac:(lia) ltac:(lia))
    as (split & i & grp & Hs & Hl & Hc & _ & _ & Hi & Hin & _).
  exists split, i, grp. done.
Defined.

(** C10: a result from rank 3, to which nothing was ever assigned. *)
Lemma result_from_unassigned_source_witness :
  let d := task_queue double in
  let p0 := root_start d [10; 20] (Groups 2 [[0]; [1]; [2]]%nat 0) in
  r_pc (probe_loop d ([(1%nat, messages_task_req)] ++ [(3%nat, set_value messages_result 7)]) p0)
    = RFailed (KeyError (key_rank 3))
  ∧ ∀ k, r_pc (probe_loop d [(1%nat, messages_task_req); (1%nat, set_value messages_result 20)] p0)
           ≠ RFailed (KeyError (key_rank k)).
Proof.
  intros d p0. split.
  - exact (proj2 (proj1 (result_from_unassigned_source d [10; 20]
                           (Groups 2 [[0]; [1]; [2]]%nat 0) [(1%nat, messages_task_req)])
                    3%nat (set_value messages_result 7) 7
                    ltac:(vm_compute; reflexivity) ltac:(reflexivity) ltac:(reflexivity)
                    ltac:(vm_compute; reflexivity))).
  - apply (proj2 (result_from_unassigned_source d [10; 20]
                    (Groups 2 [[0]; [1]; [2]]%nat 0)
                    [(1%nat, messages_task_req); (1%nat, set_value messages_result 20)])).
    intros pre source m post Heq Hm.
    destruct pre as [|x [|y [|z pre]]]; simpl in Heq; simplify_eq; try done.
    exists 10. vm_compute.
    apply list_elem_of_further, list_elem_of_further, list_elem_of_further,
      list_elem_of_here.
Defined.

(** C1 on three processes and three tasks. *)
Lemma task_queue_results_witness :
  ∃ s0 s,
    start (task_queue double) true 3 [10; 20; 30] 0 = inr s0
    ∧ exec (task_queue double) full_schedule s0 = Some s
    ∧ r_pc (root s) = RReturned (Some (results (r_q (root s))))
    ∧ results (r_q (root s)) !! 0 = Some 20
    ∧ results (r_q (root s)) !! 1 = Some 40
    ∧ results (r_q (root s)) !! 2 = Some 60
    ∧ size (results (r_q (root s))) = 3%nat.
Proof.
  destruct (task_queue_results double 3 [10; 20; 30] 0
              ltac:(vm_compute; split; [discriminate | reflexivity]))
    as (s0 & Hstart & _ & Hall).
  vm_compute in Hstart. injection Hstart as <-.
  eexists _, _. split; [vm_compute; reflexivity|]. split; [vm_compute; reflexivity|].
  split; [vm_compute; reflexivity|].
  match goal with
  | |- context [results (r_q (root ?s))] =>
      destruct (Hall full_schedule s ltac:(vm_compute; reflexivity))
        as (_ & _ & _ & Hret & _)
  end.
  destruct (Hret _ ltac:(vm_compute; reflexivity)) as (_ & Hval & _ & Hsize).
  split; [exact (Hval 0%nat)|]. split; [exact (Hval 1%nat)|].
  split; [exact (Hval 2%nat)|]. exact Hsize.
Defined.

(** C9 on two processes. *)
Lemma empty_task_list_witness :
  ∃ s0 s,
    start (task_queue double) true 2 [] 0 = inr s0
    ∧ exec (task_queue double) short_schedule s0 = Some s
    ∧ results (r_q (root s)) = ∅
    ∧ delivered (r_trace (root s)) = []
    ∧ r_pc (root s) = RReturned (Some ∅)
    ∧ ∀ w, w ∈ workers s → first_request_ends (task_queue double) (view w).
Proof.
  destruct (empty_task_list (task_queue double) 2 0
              ltac:(vm_compute; split; [discriminate | reflexivity]))
    as (s0 & Hstart & _ & Hall).
  vm_compute in Hstart. injection Hstart as <-.
  eexists _, _. split; [vm_compute; reflexivity|]. split; [vm_compute; reflexivity|].
  match goal with
  | |- results (r_q (root ?s)) = ∅ ∧ _ =>
      destruct (Hall short_schedule s ltac:(vm_compute; reflexivity))
        as (Hres & Hdel & _ & _ & Hws)
  end.
  split; [exact Hres|]. split; [exact Hdel|]. split; [vm_compute; reflexivity | exact Hws].
Defined.


(** One reply per request: two leaders ask, the first sends its result,
    the second asks again and is told to stop. *)
Lemma one_reply_per_request_witness :
  let d := task_queue double in
  let p0 := root_start d [10; 20] (Groups 2 [[0]; [1]; [2]]%nat 0) in
  let incoming :=
    [(1%nat, messages_task_req); (2%nat, messages_task_req);
     (1%nat, set_value messages_result 20)] in
  r_pc (probe_loop d incoming p0) = RLoop
  ∧ replied_to (r_trace (probe_loop d (incoming ++ [(2%nat, messages_task_req)]) p0))
    = [1; 2; 2]%nat
  ∧ Z.of_nat (terminates_sent
                (r_trace (probe_loop d (incoming ++ [(2%nat, messages_task_req)]) p0)))
    = _notified (r_q (probe_loop d (incoming ++ [(2%nat, messages_task_req)]) p0)).
Proof.
  intros d p0 incoming.
  assert (r_pc (probe_loop d incoming p0) = RLoop) as Hpc by (vm_compute; reflexivity).
  destruct (one_reply_per_request d [10; 20] (Groups 2 [[0]; [1]; [2]]%nat 0)
              incoming 2%nat messages_task_req Hpc) as (_ & Hrep & Hterm).
  split; [exact Hpc|]. split; [exact Hrep | exact Hterm].
Defined.

(** Rank 1 asks first and is given task 0; rank 2 asks and delivers in
    between; the result of rank 1 is filed under id 0. *)
Lemma result_filed_under_task_id_witness :
  let d := task_queue double in
  let p0 := root_start d [10; 20] (Groups 2 [[0]; [1]; [2]]%nat 0) in
  let mid := [(2%nat, messages_task_req); (2%nat, set_value messages_result 40)] in
  h_sent (handle_assignment 1 messages_task_req (r_q (probe_loop d [] p0)))
    = [(1%nat, set_value messages_task 10)]
  ∧ results (r_q (probe_loop d ((1%nat, messages_task_req)
                                  :: mid ++ [(1%nat, set_value messages_result 20)]) p0))
      !! 0 = Some 20.
Proof.
  intros d p0 mid.
  exact (result_filed_under_task_id d [10; 20] (Groups 2 [[0]; [1]; [2]]%nat 0)
           [] 1%nat messages_task_req mid (set_value messages_result 20) 20 10
           ltac:(reflexivity) ltac:(reflexivity) ltac:(reflexivity) ltac:(reflexivity)
           ltac:(repeat constructor; simpl; lia)
           ltac:(vm_compute; reflexivity)).
Defined.

(** Three processes and the default job count: two jobs, each process a
    group of its own. *)
Lemma default_job_count_witness :
  setup_groups true 3 2 0 = inr (Groups 2 [[0]; [1]; [2]]%nat 2)
  ∧ setup_groups true 3 2 0 = setup_groups true 3 2 2
  ∧ start (task_queue double) true 3 [10; 20; 30] 0
    = start (task_queue double) true 3 [10; 20; 30] 2.
Proof.
  exact (default_job_count (task_queue double) 3 2 [10; 20; 30] 0
           ltac:(lia) ltac:(lia) ltac:(lia)).
Defined.

(** Five processes and two jobs: rank 3 is in the second worker group. *)
Lemma setup_groups_outcome_witness :
  setup_groups true 5 3 2 ≠ inl UnboundLocalError
  ∧ ∀ g, setup_groups true 5 3 2 = inr g →
      g_njobs g = 2
      ∧ ∃ grp, all_new_comms g !! my_new_id g = Some grp ∧ 3%nat ∈ grp.
Proof.
  destruct (setup_groups_outcome true 5 3 2 ltac:(lia)) as (_ & _ & _ & Hg & Hne).
  split; [exact Hne | exact Hg].
Defined.

(** Five processes and two jobs: two leaders. *)
Lemma one_leader_per_group_witness :
  length (leaders 5 2) = 2%nat
  ∧ NoDup (leaders 5 2)
  ∧ ∃ s0, start (task_queue double) true 5 [10; 20; 30] 2 = inr s0
          ∧ w_rank <$> workers s0 = leaders 5 2
          ∧ njobs (r_q (root s0)) = 2.
Proof.
  destruct (one_leader_per_group (task_queue double) 5 [10; 20; 30] 2
              ltac:(vm_compute; split; [discriminate | reflexivity]))
    as (Hlen & Hnd & _ & Hs0).
  split; [exact Hlen|]. split; [exact Hnd | exact Hs0].
Defined.

(** The generator with a storage on three processes and three tasks. *)
Lemma every_run_ends_well_witness :
  let d := dynamic_parallel_objects (Some ∅) double in
  ∃ s0, start d true 3 [10; 20; 30] 0 = inr s0
    ∧ (∃ sched s, exec d sched s0 = Some s ∧ finished s)
    ∧ ∀ sched s, exec d sched s0 = Some s →
        (length sched ≤ 23)%nat
        ∧ (terminal d s → finished s)
        ∧ (∀ e, r_pc (root s) ≠ RFailed e)
        ∧ (∀ w e, w ∈ workers s → w_pc w ≠ WFailed e).
Proof.
  intros d.
  exact (every_run_ends_well d 3 [10; 20; 30] 0
           ltac:(vm_compute; split; [discriminate | reflexivity])).
Defined.

(** The channels of the one leader after its second request. *)
Lemma channels_bounded_witness :
  ∃ s0 s w,
    start (task_queue double) true 2 [10; 20] 0 = inr s0
    ∧ exec (task_queue double) one_task_schedule s0 = Some s
    ∧ workers s !! 0%nat = Some w
    ∧ w_up w = [set_value messages_result 20; messages_task_req]
    ∧ (length (w_up w) ≤ 2)%nat ∧ (length (w_down w) ≤ 1)%nat
    ∧ (w_up w = [] ∨ w_down w = []).
Proof.
  eexists _, _, _. split; [vm_compute; reflexivity|]. split; [vm_compute; reflexivity|].
  split; [vm_compute; reflexivity|]. split; [vm_compute; reflexivity|].
  match goal with
  | |- (length (w_up ?w) ≤ 2)%nat ∧ _ =>
      destruct (channels_bounded (task_queue double) 2 [10; 20] 0 one_task_schedule _ _ w
                  ltac:(vm_compute; split; [discriminate | reflexivity])
                  ltac:(vm_compute; reflexivity) ltac:(vm_compute; reflexivity)
                  ltac:(apply list_elem_of_here))
        as (Hup & Hdown & Hone & _)
  end.
  split; [exact Hup|]. split; [exact Hdown | exact Hone].
Defined.

(** The first result has arrived at the coordinator while the run goes
    on. *)
Lemma results_always_right_witness :
  ∃ s0 s,
    start (task_queue double) true 2 [10; 20] 0 = inr s0
    ∧ exec (task_queue double) (one_task_schedule ++ [ARoot 0]) s0 = Some s
    ∧ results (r_q (root s)) !! 0 = Some 20
    ∧ 0 ≤ 0 < _current (r_q (root s))
    ∧ ∃ task, [10; 20] !! Z.to_nat 0 = Some task ∧ 20 = double task.
Proof.
  eexists _, _. split; [vm_compute; reflexivity|]. split; [vm_compute; reflexivity|].
  split; [vm_compute; reflexivity|].
  exact (results_always_right (task_queue double) double 2 [10; 20] 0
           (one_task_schedule ++ [ARoot 0]) _ _ 0 20
           ltac:(vm_compute; split; [discriminate | reflexivity])
           ltac:(reflexivity) ltac:(vm_compute; reflexivity)
           ltac:(vm_compute; reflexivity) ltac:(vm_compute; reflexivity)).
Defined.

(** A storage with an entry under a task id and one under another key:
    the first is replaced, the second kept. *)
Lemma dynamic_storage_results_witness :
  let storage : gmap Z Z := <[0 := 7]> (<[5 := 9]> ∅) in
  let d := dynamic_parallel_objects (Some storage) double in
  ∃ s0, start d true 2 [10] 0 = inr s0
    ∧ (∃ sched s, exec d sched s0 = Some s ∧ finished s)
    ∧ ∀ sched s, exec d sched s0 = Some s →
        (∀ ret, r_pc (root s) = RReturned ret →
           ∃ after, ret = Some after
             ∧ ∀ i, after !! i =
                      if bool_decide (0 ≤ i < 1)
                      then double <$> [10] !! Z.to_nat i
                      else storage !! i)
        ∧ (∀ w ret, w ∈ workers s → w_pc w = WReturned ret →
             r_pc (root s) = RReturned ret).
Proof.
  intros storage d.
  exact (dynamic_storage_results storage double 2 [10] 0
           ltac:(vm_compute; split; [discriminate | reflexivity])).
Defined.

(** The generator without a storage, one leader served twice. *)
Lemma no_storage_records_nothing_witness :
  let d := dynamic_parallel_objects None double in
  ∃ s0 s,
    start d true 2 [10; 20] 0 = inr s0
    ∧ exec d two_tasks_schedule s0 = Some s
    ∧ _current (r_q (root s)) = 2
    ∧ results (r_q (root s)) = ∅
    ∧ (∀ w m, w ∈ workers s → m ∈ w_up w → m = messages_task_req).
Proof.
  intros d.
  eexists _, _. split; [vm_compute; reflexivity|]. split; [vm_compute; reflexivity|].
  split; [vm_compute; reflexivity|].
  match goal with
  | |- results (r_q (root ?s)) = ∅ ∧ _ =>
      destruct (no_storage_records_nothing double 2 [10; 20] 0 two_tasks_schedule _ s
                  ltac:(vm_compute; split; [discriminate | reflexivity])
                  ltac:(vm_compute; reflexivity) ltac:(vm_compute; reflexivity))
        as (Hres & Hup & _)
  end.
  split; [exact Hres | exact Hup].
Defined.
